(** * Marketplace storefront: catalog search route, item actions, audio preview

    A shallow embedding of three source files:
    - the catalog search route handler [GET] (server side),
    - the [useItemActions] hook (cart / wishlist / delete handlers),
    - the [PresetPackCard] component (audio preview toggle).

    JavaScript strings are modelled as [string], the text in its UTF-8
    encoding; white space is what [trim] removes, case folding is the one of
    the ASCII letters. *)

From stdpp Require Import base decidable option list strings sorting gmap.
From Stdlib Require Import ZArith Ascii String.

Local Open Scope string_scope.
Local Open Scope list_scope.
Local Set Warnings "-register-all,-clear-no-such-hyp".

(** ** JavaScript primitives used by the sources *)

Module Js.

(** Truthiness of a string: every string but the empty one. *)
Definition truthy (s : string) : bool :=
  match s with
  | EmptyString => false
  | String _ _ => true
  end.

(** Truthiness of [string | null | undefined]. *)
Definition truthy_opt (o : option string) : bool :=
  match o with
  | Some s => truthy s
  | None => false
  end.

(** [a || b] on a nullable string with a string fallback. *)
Definition or_else (o : option string) (d : string) : string :=
  match o with
  | Some s => if truthy s then s else d
  | None => d
  end.

Definition code (c : ascii) : N := N_of_ascii c.

(** White space as [String.prototype.trim] sees it, in the UTF-8 encoding
    of the text: the white-space and line-terminator code points TAB, LF, VT,
    FF, CR, SPACE (one byte), U+00A0 (two bytes), U+1680, U+2000 to U+200A,
    U+2028, U+2029, U+202F, U+205F, U+3000 and U+FEFF (three bytes). *)
Definition is_ws1 (a : ascii) : bool :=
  let n := code a in
  ((9 <=? n)%N && (n <=? 13)%N) || (n =? 32)%N.

Definition is_ws2 (a b : ascii) : bool :=
  (code a =? 194)%N && (code b =? 160)%N.

Definition is_ws3 (a b c : ascii) : bool :=
  let x := code a in
  let y := code b in
  let z := code c in
  ((x =? 225)%N && (y =? 154)%N && (z =? 128)%N)
  || ((x =? 226)%N && (y =? 128)%N
      && (((128 <=? z)%N && (z <=? 138)%N)
          || (z =? 168)%N || (z =? 169)%N || (z =? 175)%N))
  || ((x =? 226)%N && (y =? 129)%N && (z =? 159)%N)
  || ((x =? 227)%N && (y =? 128)%N && (z =? 128)%N)
  || ((x =? 239)%N && (y =? 187)%N && (z =? 191)%N).

(** The string starts with a white-space character: what follows it. *)
Definition afterWhiteSpace (s : string) : option string :=
  match s with
  | EmptyString => None
  | String a s1 =>
      if is_ws1 a then Some s1
      else match s1 with
           | EmptyString => None
           | String b s2 =>
               if is_ws2 a b then Some s2
               else match s2 with
                    | EmptyString => None
                    | String c s3 => if is_ws3 a b c then Some s3 else None
                    end
           end
  end.

Fixpoint trimStart (s : string) : string :=
  match s with
  | EmptyString => EmptyString
  | String a s1 =>
      if is_ws1 a then trimStart s1
      else match s1 with
           | EmptyString => s
           | String b s2 =>
               if is_ws2 a b then trimStart s2
               else match s2 with
                    | EmptyString => s
                    | String c s3 => if is_ws3 a b c then trimStart s3 else s
                    end
           end
  end.

(** The text is cut where only white space follows. *)
Fixpoint trimEnd (s : string) : string :=
  match s with
  | EmptyString => EmptyString
  | String a s' =>
      match trimStart s with
      | EmptyString => EmptyString
      | String _ _ => String a (trimEnd s')
      end
  end.

Definition trim (s : string) : string := trimEnd (trimStart s).

(** Three white-space characters beyond ASCII, as texts: the no-break space
    U+00A0, the ideographic space U+3000 and the byte order mark U+FEFF. *)
Definition NBSP : string := String "194"%char (String "160"%char EmptyString).

Definition IDEOGRAPHIC_SPACE : string :=
  String "227"%char (String "128"%char (String "128"%char EmptyString)).

Definition BOM : string :=
  String "239"%char (String "187"%char (String "191"%char EmptyString)).

Definition lower_char (c : ascii) : ascii :=
  let n := code c in
  if ((65 <=? n)%N && (n <=? 90)%N)%bool then ascii_of_N (n + 32) else c.

Definition upper_char (c : ascii) : ascii :=
  let n := code c in
  if ((97 <=? n)%N && (n <=? 122)%N)%bool then ascii_of_N (n - 32) else c.

Fixpoint toLowerCase (s : string) : string :=
  match s with
  | EmptyString => EmptyString
  | String c s' => String (lower_char c) (toLowerCase s')
  end.

Fixpoint toUpperCase (s : string) : string :=
  match s with
  | EmptyString => EmptyString
  | String c s' => String (upper_char c) (toUpperCase s')
  end.

(** [s.charAt(0)] and [s.slice(1)]. *)
Definition charAt0 (s : string) : string :=
  match s with
  | EmptyString => EmptyString
  | String c _ => String c EmptyString
  end.

Definition slice1 (s : string) : string :=
  match s with
  | EmptyString => EmptyString
  | String _ s' => s'
  end.

(** [s.charAt(0).toUpperCase() + s.slice(1)] *)
Definition capitalize (s : string) : string :=
  (toUpperCase (charAt0 s) ++ slice1 s)%string.

Fixpoint startsWith (p s : string) : bool :=
  match p, s with
  | EmptyString, _ => true
  | String a p', String b s' => if decide (a = b) then startsWith p' s' else false
  | String _ _, EmptyString => false
  end.

(** [hay.includes(needle)] *)
Fixpoint includes (needle hay : string) : bool :=
  startsWith needle hay ||
  match hay with
  | EmptyString => false
  | String _ hay' => includes needle hay'
  end.

(** [s.split(sep)] for a one-character separator: always at least one
    segment, the empty string splits into one empty segment. *)
Fixpoint split (sep : ascii) (s : string) : list string :=
  match s with
  | EmptyString => [EmptyString]
  | String c s' =>
      if decide (c = sep) then EmptyString :: split sep s'
      else match split sep s' with
           | [] => [String c EmptyString]
           | w :: ws => String c w :: ws
           end
  end.

(** [xs.filter(Boolean)] on an array of strings. *)
Definition filterBoolean (xs : list string) : list string :=
  List.filter truthy xs.

(** [xs.length > 0] *)
Definition nonempty {A} (xs : list A) : bool :=
  match xs with
  | [] => false
  | _ :: _ => true
  end.

End Js.

(** ** The catalog search route *)

Module Marketplace.

(** *** Rows of the catalog *)

Record Vst := { vst_id : string; vst_type : string }.

Record PresetUpload := {
  id : string;
  title : string;
  description : option string;
  genreId : option string;
  vst : option Vst;
  presetType : option string;
  createdAt : Z
}.

(** *** The query object handed to the persistence layer *)

Inductive StringFilter :=
| Contains (needle : string) (insensitive : bool)
| In_ (values : list string).

Inductive VstWhere :=
| VstType (f : StringFilter).

Inductive Clause :=
| OnTitle (f : StringFilter)
| OnDescription (f : StringFilter)
| OnGenreId (f : StringFilter)
| OnPresetType (f : StringFilter)
| OnVst (w : VstWhere)
| OR (alternatives : list Clause).

(** [whereClause]: an object whose only possible key is [AND]; the key is
    missing after [delete whereClause.AND]. *)
Record WhereInput := { AND : option (list Clause) }.

Inductive Order := Asc | Desc.

Record Include := {
  inc_soundDesigner : bool;
  inc_genre : bool;
  inc_vst : bool
}.

Record FindManyArgs := {
  where_ : WhereInput;
  include : Include;
  orderBy_createdAt : Order
}.

(** *** Request and response *)

(** [new URL(request.url).searchParams] as the list of its pairs. *)
Definition SearchParams := list (string * string).

Fixpoint get (name : string) (ps : SearchParams) : option string :=
  match ps with
  | [] => None
  | (k, v) :: ps' => if decide (k = name) then Some v else get name ps'
  end.

Inductive Body :=
| Rows (presets : list PresetUpload)
| ErrorObject (error : string).

Record Response := { body : Body; status : Z }.

Inductive LogLine :=
| ConsoleError (message : string) (thrown : string).

(** [searchParams.get(name)?.split(",").filter(Boolean) || []] *)
Definition listParam (name : string) (ps : SearchParams) : list string :=
  match get name ps with
  | Some raw => Js.filterBoolean (Js.split "," raw)
  | None => []
  end.

(** [whereClause.AND.push(c)] *)
Definition push (c : Clause) (cs : list Clause) : list Clause := cs ++ [c].

Definition searchClause (searchTerm : string) : Clause :=
  OR [ OnTitle (Contains (Js.trim searchTerm) true);
       OnDescription (Contains (Js.trim searchTerm) true) ].

(** The body of the [try] block up to the query: the clause list after the
    four conditional pushes. *)
Definition clauses (ps : SearchParams) : list Clause :=
  let searchTerm := Js.or_else (get "searchTerm" ps) "" in
  let genres := listParam "genres" ps in
  let vstTypes := listParam "vstTypes" ps in
  let presetTypes := listParam "presetTypes" ps in
  let and0 : list Clause := [] in
  let and1 := if Js.truthy (Js.trim searchTerm)
              then push (searchClause searchTerm) and0 else and0 in
  let and2 := if Js.nonempty genres
              then push (OnGenreId (In_ genres)) and1 else and1 in
  let and3 := if Js.nonempty vstTypes
              then push (OnVst (VstType (In_ vstTypes))) and2 else and2 in
  let and4 := if Js.nonempty presetTypes
              then push (OnPresetType (In_ presetTypes)) and3 else and3 in
  and4.

(** [if (whereClause.AND.length === 0) delete whereClause.AND] *)
Definition whereClause (ps : SearchParams) : WhereInput :=
  match clauses ps with
  | [] => {| AND := None |}
  | cs => {| AND := Some cs |}
  end.

Definition findManyArgs (ps : SearchParams) : FindManyArgs :=
  {| where_ := whereClause ps;
     include := {| inc_soundDesigner := true; inc_genre := true; inc_vst := true |};
     orderBy_createdAt := Desc |}.

Section Route.

(** The persistence layer, [prisma.presetUpload.findMany]: it either
    throws or resolves to rows. *)
Variable findMany : FindManyArgs -> string + list PresetUpload.

Definition GET (ps : SearchParams) : Response * list LogLine :=
  match findMany (findManyArgs ps) with
  | inr presets => ({| body := Rows presets; status := 200 |}, [])
  | inl error =>
      ({| body := ErrorObject "Failed to fetch presets"; status := 500 |},
       [ConsoleError "Error fetching marketplace presets:" error])
  end.

End Route.

(** *** The persistence layer

    Modelled from the spec: the database and the ORM behind
    [prisma.presetUpload.findMany] ("@/lib/prisma") are an external
    collaborator and not part of the sources.  The model follows the
    documented meaning of the query object: [contains] is a substring test
    ([mode: "insensitive"] compares case-folded strings), [in] is membership,
    a filter on a missing (null) field or relation does not match, [OR]
    needs one alternative to match, [AND] needs all of its clauses, a missing
    [where] key constrains nothing, and [orderBy] sorts the matching rows. *)

Definition matchString (f : StringFilter) (v : option string) : bool :=
  match v with
  | None => false
  | Some s =>
      match f with
      | Contains needle true => Js.includes (Js.toLowerCase needle) (Js.toLowerCase s)
      | Contains needle false => Js.includes needle s
      | In_ values => bool_decide (s ∈ values)
      end
  end.

Definition matchVst (w : VstWhere) (v : option Vst) : bool :=
  match w with
  | VstType f => matchString f (vst_type <$> v)
  end.

Fixpoint matches (r : PresetUpload) (c : Clause) : bool :=
  match c with
  | OnTitle f => matchString f (Some (title r))
  | OnDescription f => matchString f (description r)
  | OnGenreId f => matchString f (genreId r)
  | OnPresetType f => matchString f (presetType r)
  | OnVst w => matchVst w (vst r)
  | OR alternatives => existsb (matches r) alternatives
  end.

Definition matchesWhere (w : WhereInput) (r : PresetUpload) : bool :=
  match AND w with
  | None => true
  | Some cs => forallb (matches r) cs
  end.

(** Newest first. *)
Definition newer_or_same (x y : PresetUpload) : Prop :=
  (createdAt y <= createdAt x)%Z.

#[global] Instance newer_or_same_dec : RelDecision newer_or_same.
Proof. intros x y. unfold newer_or_same. apply _. Defined.

Definition older_or_same (x y : PresetUpload) : Prop :=
  (createdAt x <= createdAt y)%Z.

#[global] Instance older_or_same_dec : RelDecision older_or_same.
Proof. intros x y. unfold older_or_same. apply _. Defined.

Definition orderRows (o : Order) (rows : list PresetUpload) : list PresetUpload :=
  match o with
  | Desc => merge_sort newer_or_same rows
  | Asc => merge_sort older_or_same rows
  end.

Inductive Database :=
| Online (catalog : list PresetUpload)
| Failing (error : string).

Definition findManyOn (d : Database) (args : FindManyArgs)
  : string + list PresetUpload :=
  match d with
  | Failing error => inl error
  | Online catalog =>
      inr (orderRows (orderBy_createdAt args)
             (List.filter (matchesWhere (where_ args)) catalog))
  end.

(** *** Vocabulary for the statements *)

Inductive Dimension := SearchTerm | Genres | VstTypes | PresetTypes.

Definition paramName (d : Dimension) : string :=
  match d with
  | SearchTerm => "searchTerm"
  | Genres => "genres"
  | VstTypes => "vstTypes"
  | PresetTypes => "presetTypes"
  end.

(** The filter dimension a clause constrains. *)
Definition dimension (c : Clause) : Dimension :=
  match c with
  | OnTitle _ | OnDescription _ | OR _ => SearchTerm
  | OnGenreId _ => Genres
  | OnVst _ => VstTypes
  | OnPresetType _ => PresetTypes
  end.

(** The parameter is not in the query string, or is there with no value. *)
Definition absentOrEmpty (name : string) (ps : SearchParams) : Prop :=
  get name ps = None \/ get name ps = Some "".

(** [hay] has [needle] as a substring once both are case-folded. *)
Definition containsInsensitive (needle hay : string) : Prop :=
  exists pre post,
    Js.toLowerCase hay = (pre ++ Js.toLowerCase needle ++ post)%string.

Definition mentions (term : string) (r : PresetUpload) : Prop :=
  containsInsensitive term (title r) \/
  exists d, description r = Some d /\ containsInsensitive term d.

(** Every character of the string is a comma. *)
Fixpoint onlyCommas (s : string) : bool :=
  match s with
  | EmptyString => true
  | String c s' => if decide (c = ","%char) then onlyCommas s' else false
  end.

(** The values of a set-membership clause (none for other clauses). *)
Definition inValues (c : Clause) : list string :=
  match c with
  | OnGenreId (In_ vs) | OnPresetType (In_ vs) | OnVst (VstType (In_ vs)) => vs
  | _ => []
  end.

(** Sample rows and query strings. *)
Definition padOne : PresetUpload :=
  {| id := "p1"; title := "Pad One"; description := None;
     genreId := Some "house"; vst := Some {| vst_id := "v1"; vst_type := "SERUM" |};
     presetType := Some "PAD"; createdAt := 100 |}.

Definition deepBass : PresetUpload :=
  {| id := "p2"; title := "Deep Bass"; description := Some "A warm sub for techno";
     genreId := Some "techno"; vst := None;
     presetType := Some "BASS"; createdAt := 300 |}.

Definition untagged : PresetUpload :=
  {| id := "p3"; title := "Untagged lead"; description := Some "";
     genreId := None; vst := Some {| vst_id := "v2"; vst_type := "VITAL" |};
     presetType := None; createdAt := 200 |}.

Definition kick : PresetUpload :=
  {| id := "p4"; title := "Kick"; description := None;
     genreId := Some "house"; vst := None;
     presetType := None; createdAt := 50 |}.

Definition sampleCatalog : list PresetUpload := [padOne; deepBass; untagged].

(** The query string with every occurrence of one parameter taken out. *)
Definition without (name : string) (ps : SearchParams) : SearchParams :=
  List.filter (fun kv => negb (bool_decide (kv.1 = name))) ps.

End Marketplace.

(** ** The preset pack card: audio preview *)

Module AudioPreview.

(** An [HTMLAudioElement] is an object on the heap; a handle is its index. *)
Abbreviation Handle := nat.

(** The bodies of the arrow functions the component creates. *)
Inductive Callback :=
| EndedHandler
    (** [() => { setIsPlaying(false); setActivePreset(null); }] *)
| ErrorHandler (closureAudio : option Handle)
    (** [() => { toast.error("Failed to load audio"); cleanupAudio(); }],
        with the [audio] the enclosing [cleanupAudio] was created for *)
| StopPlaying
    (** [() => setIsPlaying(false)] *).

(** A registered listener: the event type and the function object.  Every
    evaluation of an arrow function yields a new object; [fn] is its
    identity. *)
Record Listener := { event : string; fn : nat; code : Callback }.

Record AudioElement := {
  src : string;
  paused : bool;
  listeners : list Listener
}.

(** The three [useState] cells. *)
Record CardState := {
  activePreset : option string;
  audio : option Handle;
  isPlaying : bool
}.

Inductive Toast :=
| ToastInfo (message : string)
| ToastError (message : string).

(** The component instance together with the browser objects it reaches:
    the state cells as the setters leave them, the audio elements created so
    far, the number of function objects created so far, the toasts shown. *)
Record Card := {
  state : CardState;
  heap : list AudioElement;
  functions : nat;
  toasts : list Toast
}.

Definition mount : Card :=
  {| state := {| activePreset := None; audio := None; isPlaying := false |};
     heap := []; functions := 0; toasts := [] |}.

Definition withState (f : CardState -> CardState) (c : Card) : Card :=
  {| state := f (state c); heap := heap c;
     functions := functions c; toasts := toasts c |}.

Definition withHeap (f : list AudioElement -> list AudioElement) (c : Card) : Card :=
  {| state := state c; heap := f (heap c);
     functions := functions c; toasts := toasts c |}.

Definition setActivePreset (v : option string) : Card -> Card :=
  withState (fun s => {| activePreset := v; audio := audio s; isPlaying := isPlaying s |}).

Definition setAudio (v : option Handle) : Card -> Card :=
  withState (fun s => {| activePreset := activePreset s; audio := v; isPlaying := isPlaying s |}).

Definition setIsPlaying (v : bool) : Card -> Card :=
  withState (fun s => {| activePreset := activePreset s; audio := audio s; isPlaying := v |}).

Definition toast (t : Toast) (c : Card) : Card :=
  {| state := state c; heap := heap c;
     functions := functions c; toasts := toasts c ++ [t] |}.

(** Evaluating an arrow function expression: a new function object. *)
Definition newFunction (c : Card) : nat * Card :=
  (functions c,
   {| state := state c; heap := heap c;
      functions := S (functions c); toasts := toasts c |}).

Definition setPaused (b : bool) (e : AudioElement) : AudioElement :=
  {| src := src e; paused := b; listeners := listeners e |}.

Definition setListeners (ls : list Listener) (e : AudioElement) : AudioElement :=
  {| src := src e; paused := paused e; listeners := ls |}.

(** [new Audio(url)]: a paused element without listeners. *)
Definition newAudio (url : string) (c : Card) : Handle * Card :=
  (List.length (heap c),
   withHeap (fun h => h ++ [{| src := url; paused := true; listeners := [] |}]) c).

(** [a.pause()] and [a.play()] (the promise [play] returns settles later, see
    [playRejected]). *)
Definition pause (a : Handle) : Card -> Card :=
  withHeap (alter (setPaused true) a).

Definition play (a : Handle) : Card -> Card :=
  withHeap (alter (setPaused false) a).

(** [a.addEventListener(type, f)] *)
Definition addEventListener (a : Handle) (type : string) (f : nat) (body : Callback)
  : Card -> Card :=
  withHeap (alter (fun e =>
    setListeners (listeners e ++ [{| event := type; fn := f; code := body |}]) e) a).

(** [a.removeEventListener(type, f)]: removes the listener registered for
    that type with that very function object, if there is one. *)
Definition removeEventListener (a : Handle) (type : string) (f : nat)
  : Card -> Card :=
  withHeap (alter (fun e =>
    setListeners
      (List.filter (fun l => negb (bool_decide (event l = type /\ fn l = f)))
                   (listeners e)) e) a).

(** [cleanupAudio], created by [useCallback] for a render whose [audio] cell
    held [closureAudio]. *)
Definition cleanupAudio (closureAudio : option Handle) (c : Card) : Card :=
  match closureAudio with
  | Some a =>
      let c := pause a c in
      let '(f, c) := newFunction c in
      let c := removeEventListener a "ended" f c in
      let c := setAudio None c in
      let c := setIsPlaying false c in
      setActivePreset None c
  | None => c
  end.

(** [togglePlay], created by [useCallback] for the render [r]: the cells are
    read from [r], the setters write to the card. *)
Definition togglePlay (r : CardState) (presetId : string)
    (soundPreviewUrl : option string) (c : Card) : Card :=
  match soundPreviewUrl with
  | Some url =>
      if negb (Js.truthy url)
      then toast (ToastInfo "No preview available for this preset") c
      else
        let c :=
          if Js.truthy_opt (activePreset r)
             && negb (bool_decide (activePreset r = Some presetId))
          then cleanupAudio (audio r) c
          else c in
        if negb (bool_decide (is_Some (audio r)))
           || negb (bool_decide (activePreset r = Some presetId))
        then
          let '(newA, c) := newAudio url c in
          let '(f, c) := newFunction c in
          let c := addEventListener newA "ended" f EndedHandler c in
          let '(g, c) := newFunction c in
          let c := addEventListener newA "error" g (ErrorHandler (audio r)) c in
          let c := setAudio (Some newA) c in
          let c := setActivePreset (Some presetId) c in
          let c := play newA c in
          setIsPlaying true c
        else
          match audio r with
          | Some a =>
              if isPlaying r
              then setIsPlaying false (pause a c)
              else setIsPlaying true (play a c)
          | None => c
          end
  | None => toast (ToastInfo "No preview available for this preset") c
  end.

(** [.catch(() => { toast.error("Failed to play audio"); cleanupAudio(); })]
    on the promise of [play], for the render whose [audio] was
    [closureAudio]. *)
Definition playRejected (closureAudio : option Handle) (c : Card) : Card :=
  cleanupAudio closureAudio (toast (ToastError "Failed to play audio") c).

Definition runCallback (body : Callback) (c : Card) : Card :=
  match body with
  | EndedHandler => setActivePreset None (setIsPlaying false c)
  | ErrorHandler closureAudio =>
      cleanupAudio closureAudio (toast (ToastError "Failed to load audio") c)
  | StopPlaying => setIsPlaying false c
  end.

(** The browser fires [type] on element [a]: its listeners for that type run
    in registration order. *)
Definition fire (a : Handle) (type : string) (c : Card) : Card :=
  match heap c !! a with
  | Some e =>
      foldl (fun c l => runCallback (code l) c) c
            (List.filter (fun l => bool_decide (event l = type)) (listeners e))
  | None => c
  end.

(** [useEffect(() => cleanupAudio, [cleanupAudio])]: when a render sees
    another [audio] than the render before it, [cleanupAudio] is a new
    function and the effect of the earlier render is cleaned up, which is a
    call of the earlier [cleanupAudio]. *)
Definition effectCleanup (rendered : option Handle) (c : Card) : Card :=
  if decide (audio (state c) = rendered) then c else cleanupAudio rendered c.

(** The renders that follow an event handled in a render with [audio] cell
    [rendered]: the first may clean up that render's effect, and as that
    writes the cells, a second render may clean up the first one's. *)
Definition commit (rendered : option Handle) (c : Card) : Card :=
  effectCleanup (audio (state c)) (effectCleanup rendered c).

(** A click on the play button of a preset row, up to the next stable
    render. *)
Definition click (presetId : string) (soundPreviewUrl : option string)
    (c : Card) : Card :=
  commit (audio (state c)) (togglePlay (state c) presetId soundPreviewUrl c).

(** The element has been stopped and no listener is attached to it. *)
Definition tornDown (e : AudioElement) : bool :=
  paused e && negb (Js.nonempty (listeners e)).

(** Elements that are not torn down. *)
Definition notTornDown (c : Card) : list AudioElement :=
  List.filter (fun e => negb (tornDown e)) (heap c).

(** What can happen to a mounted card: a click on a play button, an event
    of an audio element, the rejection of a [play] promise; each followed by
    the renders it causes. *)
Inductive reachable : Card -> Prop :=
| reach_mount : reachable mount
| reach_click presetId soundPreviewUrl c :
    reachable c -> reachable (click presetId soundPreviewUrl c)
| reach_fire a type c :
    reachable c -> reachable (commit (audio (state c)) (fire a type c))
| reach_playRejected closureAudio c :
    reachable c ->
    reachable (commit (audio (state c)) (playRejected closureAudio c)).

(** Every listener attached so far is a function object created so far. *)
Definition listenersKnown (c : Card) : Prop :=
  Forall (fun e => Forall (fun l => fn l < functions c) (listeners e)) (heap c).

End AudioPreview.

(** ** The item actions hook *)

Module ItemActions.

(** The [ItemType] and [CartType] enums of the generated database client.
    An enum member is the string of its name; the hook puts [itemType] into
    paths and messages and compares it with the members. *)
Definition PRESET : string := "PRESET".
Definition PACK : string := "PACK".
Definition REQUEST : string := "REQUEST".

Inductive CartType := CART | WISHLIST.

#[global] Instance CartType_eq_dec : EqDecision CartType.
Proof. solve_decision. Defined.

(** The string union ["wishlist" | "cart"] of the mutations. *)
Definition collectionName (t : CartType) : string :=
  match t with
  | CART => "cart"
  | WISHLIST => "wishlist"
  end.

(** Modelled from the spec: the enum [ContentViewMode] ("@/types/enums") is
    not part of the sources; its members are strings and the spec calls the
    member the hook tests for the "uploaded" view. *)
Definition UPLOADED : string := "uploaded".

(** [UseItemActionsProps] *)
Record Props := {
  itemId : string;
  itemType : string;
  contentViewMode : option string;
  requestViewMode : option string
}.

(** *** What a handler does to the outside *)

(** A JSON body: the keys whose value is not [undefined]. *)
Definition Json := list (string * string).

Definition field (key : string) (value : option string) : Json :=
  match value with
  | Some v => [(key, v)]
  | None => []
  end.

Record Request := {
  method : string;
  url : string;
  payload : Json
}.

(** The async thunks of the cart slice, as the hook dispatches them. *)
Inductive Thunk :=
| addToCart (item : string) (cartType : CartType) (type : string)
| moveItem (item : string) (from to : CartType)
| deleteCartItem (item : string) (type : string) (itemType : string)
| fetchCartItems (type : CartType).

Inductive Effect :=
| Fetch (request : Request)
| InvalidateQueries (queryKey : string)
| ToastSuccess (message : string)
| ToastError (message : string)
| RouterPush (path : string)
| Dispatch (thunk : Thunk).

#[global] Instance Request_eq_dec : EqDecision Request.
Proof. solve_decision. Defined.

#[global] Instance Thunk_eq_dec : EqDecision Thunk.
Proof. solve_decision. Defined.

#[global] Instance Effect_eq_dec : EqDecision Effect.
Proof. solve_decision. Defined.

(** How a [fetch] settles and how its body reads.  [Responded]: a response
    with its [ok] flag whose body the code can read, and the [error] property
    it reads from it (as the text [new Error] makes of it; absent when the
    property is missing).  [NetworkError]: the transport failed.
    [Unreadable]: a response with its [ok] flag whose body the code cannot
    read: [response.json()] rejects (an empty body, a body that is not JSON)
    or, when the response is not ok, the body is [null] and reading
    [error.error] throws; [message] is the message of that error. *)
Inductive FetchResult :=
| Responded (ok : bool) (error : option string)
| NetworkError (message : string)
| Unreadable (ok : bool) (message : string).

(** What [catch] receives: an [Error] instance or some other value. *)
Inductive Thrown :=
| ErrorInstance (message : string)
| OtherValue.

(** How [dispatch(thunk).unwrap()] settles. *)
Inductive Unwrapped :=
| Fulfilled
| Rejected (reason : Thrown).

#[global] Instance Thrown_eq_dec : EqDecision Thrown.
Proof. solve_decision. Defined.

#[global] Instance Unwrapped_eq_dec : EqDecision Unwrapped.
Proof. solve_decision. Defined.

(** *** The mutations ([useMutation]) *)

(** A mutation whose [mutationFn] sends one request, throws
    [new Error(error.error || fallback)] on a response that is not ok,
    resolves to [response.json()] otherwise, and throws what reading the body
    throws. *)
Record Mutation (V : Type) := {
  request : V -> Request;
  fallback : V -> string;
  onSuccess : V -> list Effect;
  onError : string -> list Effect
}.
Arguments request {V}.
Arguments fallback {V}.
Arguments onSuccess {V}.
Arguments onError {V}.

(** The outcome of [mutationFn]: the message of the error thrown, or
    success. *)
Definition mutationFn {V} (m : Mutation V) (v : V) (r : FetchResult)
  : string + unit :=
  match r with
  | NetworkError message => inl message
  | Unreadable _ message => inl message
  | Responded false error => inl (Js.or_else error (fallback m v))
  | Responded true _ => inr tt
  end.

(** [m.mutate(v)] from the call to the moment the request is out, and from
    the settling of the request on. *)
Definition mutateBegin {V} (m : Mutation V) (v : V) : list Effect :=
  [Fetch (request m v)].

Definition mutateSettle {V} (m : Mutation V) (v : V) (r : FetchResult)
  : list Effect :=
  match mutationFn m v r with
  | inr _ => onSuccess m v
  | inl message => onError m message
  end.

Definition mutate {V} (m : Mutation V) (v : V) (r : FetchResult) : list Effect :=
  mutateBegin m v ++ mutateSettle m v r.

(** *** The cart store

    Modelled from the spec: the cart slice ("@/app/store/features/cartSlice":
    its state, the [optimisticAddToCart] reducer and the reducers of the
    thunks) is not part of the sources.  Following the spec, the store keeps
    the entries of the two collections and a loading flag per item; the
    optimistic reducer applies the presumed end state, that is, puts the
    entry into the collection; a fulfilled [fetchCartItems] replaces the
    collection by the authoritative entries.  What else the actions of a
    thunk do to the store (the loading flags, say) is not described and is
    left open ([lifecycle], by thunk and by whether it was fulfilled). *)

Record CartEntry := {
  entryId : string;
  entryItemType : string;
  quantity : Z;
  createdAt : Z;
  updatedAt : Z;
  cartId : string;
  presetId : option string;
  packId : option string
}.

Record CartState := {
  cartItems : list CartEntry;
  wishlistItems : list CartEntry;
  loading : gmap string bool
}.

Definition itemsOf (type : CartType) (s : CartState) : list CartEntry :=
  match type with
  | CART => cartItems s
  | WISHLIST => wishlistItems s
  end.

Definition setItems (type : CartType) (entries : list CartEntry) (s : CartState)
  : CartState :=
  match type with
  | CART => {| cartItems := entries; wishlistItems := wishlistItems s; loading := loading s |}
  | WISHLIST => {| cartItems := cartItems s; wishlistItems := entries; loading := loading s |}
  end.

(** The payload of [optimisticAddToCart]. *)
Record OptimisticAdd := {
  optItemId : string;
  optType : CartType;
  optItem : CartEntry
}.

Definition optimisticAddToCart (a : OptimisticAdd) (s : CartState) : CartState :=
  setItems (optType a) (itemsOf (optType a) s ++ [optItem a]) s.

(** How [dispatch(fetchCartItems(type))] settles; the promise of a bare
    dispatch never rejects. *)
Inductive Fetched :=
| Loaded (entries : list CartEntry)
| NotLoaded.

(** The entry is about item [x]. *)
Definition refersTo (x : string) (e : CartEntry) : bool :=
  bool_decide (entryId e = x)
  || bool_decide (presetId e = Some x)
  || bool_decide (packId e = Some x).

(** The local cart collection has an entry about [x]. *)
Definition cartContains (x : string) (s : CartState) : bool :=
  existsb (refersTo x) (cartItems s).

Section Hook.

Variable props : Props.

(** The reducers of the thunk actions the spec does not describe. *)
Variable lifecycle : Thunk -> bool -> CartState -> CartState.

Definition settleFetch (type : CartType) (f : Fetched) (s : CartState) : CartState :=
  match f with
  | Loaded entries => setItems type entries (lifecycle (fetchCartItems type) true s)
  | NotLoaded => lifecycle (fetchCartItems type) false s
  end.

Definition itemBody : Json :=
  field "presetId" (if decide (itemType props = PRESET) then Some (itemId props) else None)
  ++ field "packId" (if decide (itemType props = PACK) then Some (itemId props) else None).

Definition addToCartMutation : Mutation unit :=
  {| request := fun _ => {| method := "POST"; url := "/api/cart/cart"; payload := itemBody |};
     fallback := fun _ => "Failed to add to cart";
     onSuccess := fun _ =>
       [InvalidateQueries "cart";
        ToastSuccess (Js.capitalize (itemType props) ++ " added to cart")%string];
     onError := fun message => [ToastError message] |}.

Definition addToWishlistMutation : Mutation unit :=
  {| request := fun _ => {| method := "POST"; url := "/api/cart/wishlist"; payload := itemBody |};
     fallback := fun _ => "Failed to add to wishlist";
     onSuccess := fun _ =>
       [InvalidateQueries "wishlist";
        ToastSuccess (Js.capitalize (itemType props) ++ " added to wishlist")%string];
     onError := fun message => [ToastError message] |}.

Definition deleteItemMutation : Mutation unit :=
  {| request := fun _ =>
       {| method := "DELETE";
          url := ("/api/" ++ itemType props ++ "s/" ++ itemId props)%string;
          payload := [] |};
     fallback := fun _ => ("Failed to delete " ++ itemType props)%string;
     onSuccess := fun _ =>
       [InvalidateQueries (itemType props ++ "s")%string;
        ToastSuccess (Js.capitalize (itemType props) ++ " deleted successfully")%string]
       ++ (if decide (contentViewMode props = Some UPLOADED)
           then [RouterPush ("/dashboard/" ++ itemType props ++ "s")%string]
           else []);
     onError := fun message => [ToastError message] |}.

Definition moveItemMutation : Mutation CartType :=
  {| request := fun from =>
       {| method := "PUT";
          url := ("/api/cart/" ++ collectionName from)%string;
          payload := [("itemId", itemId props);
                      ("from", collectionName from);
                      ("to", "cart")] |};
     fallback := fun _ => "Failed to move item";
     onSuccess := fun _ =>
       [InvalidateQueries "cart";
        InvalidateQueries "wishlist";
        ToastSuccess (Js.capitalize (itemType props) ++ " moved to cart")%string];
     onError := fun message => [ToastError message] |}.

Definition removeItemMutation : Mutation CartType :=
  {| request := fun from =>
       {| method := "DELETE";
          url := ("/api/cart/" ++ collectionName from)%string;
          payload := [("itemId", itemId props)] |};
     fallback := fun _ => "Failed to remove item";
     onSuccess := fun from =>
       [InvalidateQueries (collectionName from);
        ToastSuccess (Js.capitalize (itemType props) ++ " removed from "
                      ++ collectionName from)%string];
     onError := fun message => [ToastError message] |}.

(** *** The handlers *)

(** [handleDelete].  [mutate] returns [undefined] at once, so the [await] in
    front of it resumes the handler before the request has settled: the
    redirect of the handler comes first, the callbacks of the mutation come
    when [settled] arrives.  (Whether the request leaves before or after the
    redirect is decided inside the mutation library; nothing below depends
    on it.) *)
Definition handleDelete (settled : FetchResult) : list Effect :=
  mutateBegin deleteItemMutation tt
  ++ (if bool_decide (itemType props = REQUEST) && Js.truthy_opt (requestViewMode props)
      then [RouterPush ("/requests?view=" ++ default "" (requestViewMode props))%string]
      else if Js.truthy_opt (contentViewMode props)
      then [RouterPush ("/dashboard/" ++ itemType props ++ "s")%string]
      else [])
  ++ mutateSettle deleteItemMutation tt settled.

(** [handleAddToCart], first part: the synchronous dispatch of the
    optimistic update, with the two readings of the clock for the entry. *)
Definition optimisticEntry (created updated : Z) : CartEntry :=
  {| entryId := itemId props;
     entryItemType := itemType props;
     quantity := 1;
     createdAt := created;
     updatedAt := updated;
     cartId := "";
     presetId := if decide (itemType props = PRESET) then Some (itemId props) else None;
     packId := if decide (itemType props = PACK) then Some (itemId props) else None |}.

Definition handleAddToCart_optimistic (created updated : Z) (s : CartState)
  : CartState :=
  optimisticAddToCart
    {| optItemId := itemId props; optType := CART;
       optItem := optimisticEntry created updated |} s.

(** [handleAddToCart], second part: from the first [await] on.  [added] is
    how the [addToCart] thunk settles, [refetched] how the [fetchCartItems]
    that follows settles (in the [try] block after a success, in the [catch]
    block after a failure). *)
Definition handleAddToCart_settle (added : Unwrapped) (refetched : Fetched)
    (s : CartState) : CartState * list Effect :=
  let s := lifecycle (addToCart (itemId props) CART (itemType props))
             (bool_decide (added = Fulfilled)) s in
  match added with
  | Fulfilled =>
      (settleFetch CART refetched s,
       [Dispatch (addToCart (itemId props) CART (itemType props));
        Dispatch (fetchCartItems CART);
        ToastSuccess (Js.capitalize (itemType props) ++ " added to cart")%string])
  | Rejected reason =>
      (settleFetch CART refetched s,
       [Dispatch (addToCart (itemId props) CART (itemType props));
        Dispatch (fetchCartItems CART);
        ToastError (match reason with
                    | ErrorInstance message => message
                    | OtherValue => "Failed to add to cart"
                    end)])
  end.

Definition handleAddToCart (created updated : Z) (added : Unwrapped)
    (refetched : Fetched) (s : CartState) : CartState * list Effect :=
  handleAddToCart_settle added refetched
    (handleAddToCart_optimistic created updated s).

(** [handleMoveToCart]: one dispatch of the [moveItem] thunk; when it is
    fulfilled, both collections are fetched again ([Promise.all]). *)
Definition handleMoveToCart (from : CartType) (moved : Unwrapped) : list Effect :=
  Dispatch (moveItem (itemId props) from CART)
  :: match moved with
     | Fulfilled =>
         [Dispatch (fetchCartItems CART);
          Dispatch (fetchCartItems WISHLIST);
          ToastSuccess (itemType props ++ " moved to cart")%string]
     | Rejected (ErrorInstance message) => [ToastError message]
     | Rejected OtherValue => [ToastError "Failed to move item"]
     end.

(** [handleRemoveItem] *)
Definition handleRemoveItem (type : CartType) (removed : Unwrapped) : list Effect :=
  Dispatch (deleteCartItem (itemId props)
              (Js.toUpperCase (collectionName type)) (itemType props))
  :: match removed with
     | Fulfilled =>
         [ToastSuccess (Js.capitalize (collectionName type) ++ " removed from "
                        ++ collectionName type)%string]
     | Rejected (ErrorInstance message) => [ToastError message]
     | Rejected OtherValue => [ToastError "Failed to remove item"]
     end.

End Hook.

(** *** The cart API

    Modelled from the spec: the routes under [/api/cart] are not part of the
    sources.  Following the spec, the server keeps the two collections of
    the user, each request is one step of the server, an entry is in one
    collection at a time, and a move is a single request that takes the item
    out of the source collection and puts it into the target. *)

Record Server := {
  serverCart : list string;
  serverWishlist : list string
}.

Definition serverItems (type : CartType) (s : Server) : list string :=
  match type with
  | CART => serverCart s
  | WISHLIST => serverWishlist s
  end.

Definition serverSet (type : CartType) (items : list string) (s : Server) : Server :=
  match type with
  | CART => {| serverCart := items; serverWishlist := serverWishlist s |}
  | WISHLIST => {| serverCart := serverCart s; serverWishlist := items |}
  end.

Definition serverAdd (type : CartType) (x : string) (s : Server) : Server :=
  if bool_decide (x ∈ serverItems type s) then s
  else serverSet type (serverItems type s ++ [x]) s.

Definition serverRemove (type : CartType) (x : string) (s : Server) : Server :=
  serverSet type (List.filter (fun y => negb (bool_decide (y = x))) (serverItems type s)) s.

Definition collectionOf (name : string) : option CartType :=
  if decide (name = "cart") then Some CART
  else if decide (name = "wishlist") then Some WISHLIST
  else None.

Definition routeOf (url : string) : option CartType :=
  if decide (url = "/api/cart/cart") then Some CART
  else if decide (url = "/api/cart/wishlist") then Some WISHLIST
  else None.

Fixpoint jsonGet (key : string) (j : Json) : option string :=
  match j with
  | [] => None
  | (k, v) :: j' => if decide (k = key) then Some v else jsonGet key j'
  end.

(** One request, one step of the server. *)
Definition serve (r : Request) (s : Server) : Server :=
  match routeOf (url r) with
  | Some route =>
      if decide (method r = "PUT") then
        match jsonGet "itemId" (payload r),
              jsonGet "from" (payload r) ≫= collectionOf,
              jsonGet "to" (payload r) ≫= collectionOf with
        | Some x, Some from, Some to =>
            if bool_decide (x ∈ serverItems from s)
            then serverAdd to x (serverRemove from x s)
            else s
        | _, _, _ => s
        end
      else if decide (method r = "DELETE") then
        match jsonGet "itemId" (payload r) with
        | Some x => serverRemove route x s
        | None => s
        end
      else if decide (method r = "POST") then
        match jsonGet "presetId" (payload r), jsonGet "packId" (payload r) with
        | Some x, _ | None, Some x => serverAdd route x s
        | None, None => s
        end
      else s
  | None => s
  end.

(** The states the server goes through while the requests among the effects
    arrive one after the other, the state before the first one included. *)
Fixpoint serverStates (effects : list Effect) (s : Server) : list Server :=
  match effects with
  | [] => [s]
  | Fetch r :: rest => s :: serverStates rest (serve r s)
  | _ :: rest => serverStates rest s
  end.

Definition requestsOf (effects : list Effect) : list Request :=
  omap (fun e => match e with Fetch r => Some r | _ => None end) effects.

(** How often an effect occurs. *)
Definition occurrences (e : Effect) (effects : list Effect) : nat :=
  List.length (List.filter (fun e' => bool_decide (e' = e)) effects).

Definition invalidations (key : string) : list Effect -> nat :=
  occurrences (InvalidateQueries key).

Definition dispatches (t : Thunk) : list Effect -> nat :=
  occurrences (Dispatch t).

(** The thunks dispatched that change a collection (everything but
    [fetchCartItems]). *)
Definition changesDispatched (effects : list Effect) : list Thunk :=
  omap (fun e => match e with
                 | Dispatch (fetchCartItems _) => None
                 | Dispatch t => Some t
                 | _ => None
                 end) effects.

(** The item is in one of the two collections. *)
Definition held (x : string) (s : Server) : Prop :=
  x ∈ serverCart s \/ x ∈ serverWishlist s.

End ItemActions.

(** ** More of the catalog search route: vocabulary *)

Module CatalogQuery.
Import Marketplace.

(** The search term the handler works with: [searchTerm.trim()]. *)
Definition searchTermOf (ps : SearchParams) : string :=
  Js.trim (Js.or_else (get "searchTerm" ps) "").

(** The row passes every filter the request switches on. *)
Definition satisfies (ps : SearchParams) (r : PresetUpload) : Prop :=
  (searchTermOf ps <> EmptyString -> mentions (searchTermOf ps) r)
  /\ (listParam "genres" ps <> [] ->
      exists g, genreId r = Some g /\ g ∈ listParam "genres" ps)
  /\ (listParam "vstTypes" ps <> [] ->
      exists v, vst r = Some v /\ vst_type v ∈ listParam "vstTypes" ps)
  /\ (listParam "presetTypes" ps <> [] ->
      exists t, presetType r = Some t /\ t ∈ listParam "presetTypes" ps).

(** [xs.join(sep)], what a caller does to put a list into one parameter. *)
Fixpoint join (sep : string) (xs : list string) : string :=
  match xs with
  | [] => EmptyString
  | x :: rest =>
      match rest with
      | [] => x
      | _ :: _ => (x ++ sep ++ join sep rest)%string
      end
  end.

(** An identifier that can be sent in a list: not empty, no comma in it. *)
Definition listable (x : string) : Prop :=
  x <> EmptyString /\ Js.includes "," x = false.

(** A parameter name the handler reads. *)
Definition known (k : string) : Prop := exists d, k = paramName d.

End CatalogQuery.

(** ** More of the item actions hook *)

Module HookRest.
Import ItemActions.

Section Hook.

Variable props : Props.



(** [handleAddToWishlist: () => addToWishlistMutation.mutate()] *)
Definition handleAddToWishlist (settled : FetchResult) : list Effect :=
  mutate (addToWishlistMutation props) tt settled.

End Hook.

(** The routes pushed, the query keys invalidated and the toasts shown, in
    order. *)
Definition pushes (effects : list Effect) : list string :=
  omap (fun e => match e with RouterPush path => Some path | _ => None end) effects.

Definition invalidated (effects : list Effect) : list string :=
  omap (fun e => match e with InvalidateQueries k => Some k | _ => None end) effects.

Inductive Shown :=
| Success (message : string)
| Failure (message : string).

Definition shown (effects : list Effect) : list Shown :=
  omap (fun e => match e with
                 | ToastSuccess m => Some (Success m)
                 | ToastError m => Some (Failure m)
                 | _ => None
                 end) effects.

Definition thunks (effects : list Effect) : list Thunk :=
  omap (fun e => match e with Dispatch t => Some t | _ => None end) effects.

(** The request did not end in an ok response with a body that can be
    read. *)
Definition failed (r : FetchResult) : bool :=
  match r with
  | Responded true _ => false
  | _ => true
  end.

(** The message a failed request ends in, given the fallback of the
    mutation. *)
Definition failureMessage (fallback : string) (r : FetchResult) : string :=
  match r with
  | NetworkError message => message
  | Unreadable _ message => message
  | Responded _ error => Js.or_else error fallback
  end.

(** The name of a [CartType] member. *)
Definition cartTypeName (t : CartType) : string :=
  match t with
  | CART => "CART"
  | WISHLIST => "WISHLIST"
  end.

End HookRest.

(** ** More of the preset pack card: the rows and their buttons *)

Module CardView.
Import AudioPreview.

(** [pack.presets[i].preset] and the parts of [pack] the logic reads (the
    other properties are only rendered as text). *)
Record Preset := {
  presetId : string;
  presetTitle : string;
  soundPreviewUrl : option string
}.

Record Pack := {
  packId : string;
  presets : list Preset
}.

(** [pack.presets.slice(0, 5)] *)
Definition displayedPresets (pack : Pack) : list Preset := take 5 (presets pack).

(** [disabled={!item.preset.soundPreviewUrl}] *)
Definition disabled (p : Preset) : bool := negb (Js.truthy_opt (soundPreviewUrl p)).

(** [isPlaying && activePreset === item.preset.id]: the row shows the pause
    icon, otherwise the play icon. *)
Definition showsPause (s : CardState) (p : Preset) : bool :=
  isPlaying s && bool_decide (activePreset s = Some (presetId p)).

(** The user presses the button of a row: a disabled button does nothing, an
    enabled one runs [onClick]. *)
Definition press (p : Preset) (c : Card) : Card :=
  if disabled p then c else click (presetId p) (soundPreviewUrl p) c.

(** The component is taken off the page: the clean-up of the last effect
    runs. *)
Definition unmount (c : Card) : Card := cleanupAudio (audio (state c)) c.

(** What the user and the browser can do to the card of [pack]. *)
Inductive shows (pack : Pack) : Card -> Prop :=
| shows_mount : shows pack mount
| shows_press p c :
    p ∈ displayedPresets pack -> shows pack c -> shows pack (press p c)
| shows_fire a type c :
    shows pack c -> shows pack (commit (audio (state c)) (fire a type c))
| shows_playRejected closureAudio c :
    shows pack c ->
    shows pack (commit (audio (state c)) (playRejected closureAudio c)).

(** The [paused] flags of the audio elements, by handle. *)
Definition pausedFlags (c : Card) : list bool := paused <$> heap c.

(** The state cells and the audio elements agree: the handle in the [audio]
    cell is an element; an element that is not paused is the one in the
    [audio] cell; when [isPlaying] is set, a preset is active and the element
    in the [audio] cell is not paused; an active preset has an element. *)
Record coherent (c : Card) : Prop := {
  handle_valid : forall a, audio (state c) = Some a -> a < List.length (heap c);
  sounding_is_current :
    forall i, pausedFlags c !! i = Some false -> audio (state c) = Some i;
  playing_sounds :
    isPlaying (state c) = true ->
    exists a, audio (state c) = Some a /\ pausedFlags c !! a = Some false;
  playing_is_active :
    isPlaying (state c) = true -> is_Some (activePreset (state c));
  active_has_element :
    is_Some (activePreset (state c)) -> is_Some (audio (state c))
}.

(** The [src] of the audio elements and the event types of their
    listeners, by handle. *)
Definition sources (c : Card) : list string := src <$> heap c.

Definition listenerEvents (c : Card) : list (list string) :=
  (fun e => event <$> listeners e) <$> heap c.

(** From [c] to [d] nothing was started: the audio elements are the same but
    for [paused] flags that were set, and the state cells are either
    untouched (and then so are the elements) or say that nothing plays, with
    the [audio] cell kept or emptied and the active preset kept (together
    with the [audio] cell) or cleared. *)
Record calmer (c d : Card) : Prop := {
  calmer_sources : sources d = sources c;
  calmer_listeners : listenerEvents d = listenerEvents c;
  calmer_length : List.length (heap d) = List.length (heap c);
  calmer_flags :
    forall i, pausedFlags d !! i = Some false -> pausedFlags c !! i = Some false;
  calmer_state :
    (state d = state c /\ heap d = heap c)
    \/ (isPlaying (state d) = false
        /\ (activePreset (state d) = None
            \/ (activePreset (state d) = activePreset (state c)
                /\ audio (state d) = audio (state c)))
        /\ (audio (state d) = audio (state c) \/ audio (state d) = None))
}.

(** The toast is the notice about a missing preview. *)
Definition isInfo (t : Toast) : bool :=
  match t with
  | ToastInfo _ => true
  | ToastError _ => false
  end.

End CardView.

(** * Properties *)

(** ** Facts about the JavaScript primitives *)

Module JsFacts.
Import Js.

Lemma startsWith_spec p s :
  startsWith p s = true <-> exists post, s = (p ++ post)%string.
Proof.
  revert s. induction p as [|a p IH]; intros s; simpl.
  - split; [intros _; by exists s | done].
  - destruct s as [|b s]; simpl.
    + split; [done | intros [post H]; discriminate].
    + destruct (decide (a = b)) as [->|Hab].
      * rewrite IH. split; intros [post H]; exists post; [by rewrite H | by injection H].
      * split; [done | intros [post H]; injection H; congruence].
Qed.

Lemma includes_spec needle hay :
  includes needle hay = true <->
  exists pre post, hay = (pre ++ needle ++ post)%string.
Proof.
  induction hay as [|c hay IH]; simpl.
  - rewrite orb_false_r, startsWith_spec. split.
    + intros [post H]. by exists EmptyString, post.
    + intros (pre & post & H). destruct pre; simpl in H; [by exists post | discriminate].
  - rewrite orb_true_iff, startsWith_spec, IH. split.
    + intros [[post H] | (pre & post & H)].
      * by exists EmptyString, post.
      * exists (String c pre), post. simpl. by rewrite H.
    + intros (pre & post & H). destruct pre as [|c' pre]; simpl in H.
      * left. by exists post.
      * right. injection H as _ H. by exists pre, post.
Qed.

Lemma truthy_true s : truthy s = true <-> s <> EmptyString.
Proof. destruct s; simpl; split; congruence. Qed.

Lemma filterBoolean_elem xs x :
  x ∈ filterBoolean xs <-> x ∈ xs /\ x <> EmptyString.
Proof.
  unfold filterBoolean. rewrite !list_elem_of_In, filter_In, truthy_true. done.
Qed.

Lemma filterBoolean_all_empty xs :
  Forall (eq EmptyString) xs -> filterBoolean xs = [].
Proof.
  induction 1 as [|x xs <- _ IH]; simpl; [done | exact IH].
Qed.

Lemma split_never_nil sep s : split sep s <> [].
Proof.
  destruct s as [|c s]; simpl; [done |].
  destruct (decide (c = sep)); [done |]. by destruct (split sep s).
Qed.

Lemma nonempty_true {A} (xs : list A) : nonempty xs = true <-> xs <> [].
Proof. destruct xs; simpl; split; congruence. Qed.

Lemma or_else_empty o :
  o = None \/ o = Some EmptyString -> or_else o EmptyString = EmptyString.
Proof. by intros [-> | ->]. Qed.

End JsFacts.

(** ** The catalog search route *)

Module MarketplaceFacts.
Import Js JsFacts Marketplace.

#[local] Instance newer_or_same_trans : Transitive newer_or_same.
Proof. intros x y z. unfold newer_or_same. lia. Qed.

#[local] Instance newer_or_same_total : Total newer_or_same.
Proof. intros x y. unfold newer_or_same. lia. Qed.

(** What a list parameter parses to. *)
Lemma listParam_elem name ps g :
  g ∈ listParam name ps <->
  exists raw, get name ps = Some raw /\ g ∈ split "," raw /\ g <> EmptyString.
Proof.
  unfold listParam. destruct (get name ps) as [raw|].
  - rewrite filterBoolean_elem. split.
    + intros [H1 H2]. by exists raw.
    + intros (raw' & [= <-] & H1 & H2). done.
  - split; [by intros ?%elem_of_nil | by intros (? & ? & _)].
Qed.

Lemma listParam_absentOrEmpty name ps :
  absentOrEmpty name ps -> listParam name ps = [].
Proof. unfold listParam. by intros [-> | ->]. Qed.

Lemma split_onlyCommas s :
  onlyCommas s = true -> Forall (eq EmptyString) (split "," s).
Proof.
  induction s as [|c s IH]; simpl; intros H.
  - by repeat constructor.
  - destruct (decide (c = ","%char)); [| done]. constructor; auto.
Qed.

Lemma listParam_onlyCommas name ps raw :
  get name ps = Some raw -> onlyCommas raw = true -> listParam name ps = [].
Proof.
  intros Hget Hraw. unfold listParam. rewrite Hget.
  by apply filterBoolean_all_empty, split_onlyCommas.
Qed.

(** The clause list, one membership case per filter dimension. *)
Lemma clauses_elem ps c :
  c ∈ clauses ps <->
  (c = searchClause (or_else (get "searchTerm" ps) "")
     /\ trim (or_else (get "searchTerm" ps) "") <> EmptyString)
  \/ (c = OnGenreId (In_ (listParam "genres" ps)) /\ listParam "genres" ps <> [])
  \/ (c = OnVst (VstType (In_ (listParam "vstTypes" ps)))
        /\ listParam "vstTypes" ps <> [])
  \/ (c = OnPresetType (In_ (listParam "presetTypes" ps))
        /\ listParam "presetTypes" ps <> []).
Proof.
  unfold clauses, push.
  rewrite <- truthy_true, <- !nonempty_true.
  destruct (truthy (trim _)), (nonempty (listParam "genres" ps)),
    (nonempty (listParam "vstTypes" ps)), (nonempty (listParam "presetTypes" ps));
    simpl; rewrite ?elem_of_cons, ?elem_of_nil; naive_solver.
Qed.

Lemma whereClause_AND ps :
  AND (whereClause ps) = match clauses ps with [] => None | cs => Some cs end.
Proof. unfold whereClause. by destruct (clauses ps). Qed.

Lemma matchesWhere_whereClause ps r :
  matchesWhere (whereClause ps) r = forallb (matches r) (clauses ps).
Proof.
  unfold matchesWhere. rewrite whereClause_AND. by destruct (clauses ps).
Qed.

(** With a working database the route answers 200 with the matching rows,
    newest first, and logs nothing. *)
Lemma GET_online catalog ps :
  GET (findManyOn (Online catalog)) ps =
  ({| body := Rows (merge_sort newer_or_same
                      (List.filter (matchesWhere (whereClause ps)) catalog));
      status := 200 |}, []).
Proof. reflexivity. Qed.

Lemma returned_row_matches catalog ps r c :
  r ∈ merge_sort newer_or_same
        (List.filter (matchesWhere (whereClause ps)) catalog) ->
  c ∈ clauses ps ->
  r ∈ catalog /\ matches r c = true.
Proof.
  rewrite merge_sort_Permutation, list_elem_of_In, filter_In.
  rewrite matchesWhere_whereClause, forallb_forall.
  intros [Hr Hall] Hc. split; [by apply list_elem_of_In |].
  by apply Hall, list_elem_of_In.
Qed.

Lemma matchString_insensitive needle v :
  matchString (Contains needle true) v = true <->
  exists s, v = Some s /\ containsInsensitive needle s.
Proof.
  unfold containsInsensitive. destruct v as [s|]; simpl.
  - rewrite includes_spec. split; [intros H; by exists s | by intros (? & [= <-] & H)].
  - split; [done | by intros (? & ? & _)].
Qed.

Lemma matchString_in values v :
  matchString (In_ values) v = true <-> exists s, v = Some s /\ s ∈ values.
Proof.
  destruct v as [s|]; simpl.
  - rewrite bool_decide_eq_true. split; [intros H; by exists s | by intros (? & [= <-] & H)].
  - split; [done | by intros (? & ? & _)].
Qed.

Lemma get_without_same name ps : get name (without name ps) = None.
Proof.
  induction ps as [|[k v] ps IH]; simpl; [done |].
  case_bool_decide; simpl; [done |]. by rewrite decide_False.
Qed.

Lemma get_without_other name name' ps :
  name' <> name -> get name' (without name ps) = get name' ps.
Proof.
  intros Hne. induction ps as [|[k v] ps IH]; simpl; [done |].
  case_bool_decide as Hk; simpl in *.
  - subst k. by rewrite decide_False.
  - by rewrite IH.
Qed.

Lemma filter_matches_nothing_to_check catalog :
  List.filter (matchesWhere {| AND := None |}) catalog = catalog.
Proof. induction catalog as [|r rs IH]; simpl; [done | by rewrite IH]. Qed.

(** C1: an absent or empty filter parameter contributes no clause for its
    dimension; when all four are absent or empty no clause is produced; and
    when no clause is produced the [AND] key is deleted, so the query object
    has no filter at all and the answer is the whole catalog, newest first. *)
Theorem C1_absent_filters_leave_query_unfiltered catalog ps :
  (forall d c, absentOrEmpty (paramName d) ps -> c ∈ clauses ps -> dimension c <> d)
  /\ ((forall d, absentOrEmpty (paramName d) ps) -> clauses ps = [])
  /\ (clauses ps = [] ->
      whereClause ps = {| AND := None |}
      /\ exists rows,
           GET (findManyOn (Online catalog)) ps
           = ({| body := Rows rows; status := 200 |}, [])
           /\ rows ≡ₚ catalog
           /\ StronglySorted newer_or_same rows).
Proof.
  assert (Hdim : forall d c,
    absentOrEmpty (paramName d) ps -> c ∈ clauses ps -> dimension c <> d).
  { intros d c Habs Hc. apply clauses_elem in Hc.
    destruct Hc as [[-> Ht] | [[-> Hg] | [[-> Hv] | [-> Hp]]]];
      destruct d; simpl in *; try discriminate; intros _.
    - apply Ht. by rewrite (or_else_empty _ Habs).
    - by apply Hg, listParam_absentOrEmpty.
    - by apply Hv, listParam_absentOrEmpty.
    - by apply Hp, listParam_absentOrEmpty. }
  split; [exact Hdim |]. split.
  - intros Hall. apply elem_of_nil_inv. intros c Hc.
    by apply (Hdim (dimension c) c (Hall _) Hc).
  - intros Hnone. unfold whereClause. rewrite Hnone. split; [done |].
    eexists. split; [| split].
    + rewrite GET_online. unfold whereClause. rewrite Hnone. reflexivity.
    + by rewrite merge_sort_Permutation, filter_matches_nothing_to_check.
    + apply (StronglySorted_merge_sort _).
Qed.

Lemma C1_witness :
  whereClause [("genres", ""); ("searchTerm", "")] = {| AND := None |}
  /\ exists rows,
       GET (findManyOn (Online sampleCatalog)) [("genres", ""); ("searchTerm", "")]
       = ({| body := Rows rows; status := 200 |}, [])
       /\ rows ≡ₚ sampleCatalog
       /\ StronglySorted newer_or_same rows.
Proof.
  destruct (C1_absent_filters_leave_query_unfiltered sampleCatalog
              [("genres", ""); ("searchTerm", "")]) as (_ & Hall & Hq).
  apply Hq, Hall. intros d. destruct d; [by right | by right | by left | by left].
Defined.

(** C6: when the persistence layer throws, the handler logs the error and
    answers with the generic error object and status 500; the body holds no
    rows. *)
Theorem C6_persistence_error_is_a_generic_500
    (findMany : FindManyArgs -> string + list PresetUpload) ps error :
  findMany (findManyArgs ps) = inl error ->
  GET findMany ps
  = ({| body := ErrorObject "Failed to fetch presets"; status := 500 |},
     [ConsoleError "Error fetching marketplace presets:" error]).
Proof. intros H. unfold GET. by rewrite H. Qed.

Lemma C6_witness :
  GET (findManyOn (Failing "connection refused")) [("genres", "house")]
  = ({| body := ErrorObject "Failed to fetch presets"; status := 500 |},
     [ConsoleError "Error fetching marketplace presets:" "connection refused"]).
Proof.
  apply (C6_persistence_error_is_a_generic_500
           (findManyOn (Failing "connection refused"))).
  reflexivity.
Defined.

Lemma trim_nonempty_truthy term : trim term <> EmptyString -> truthy term = true.
Proof. destruct term; [done | by intros _]. Qed.

(** C7 (amended): when the search term is not blank after trimming, every
    returned row has the trimmed term as a case-insensitive substring of its
    title or of its description. *)
Theorem C7_rows_mention_the_trimmed_term catalog ps term :
  get "searchTerm" ps = Some term ->
  trim term <> EmptyString ->
  exists rows,
    GET (findManyOn (Online catalog)) ps
    = ({| body := Rows rows; status := 200 |}, [])
    /\ forall r, r ∈ rows -> r ∈ catalog /\ mentions (trim term) r.
Proof.
  intros Hget Htrim. eexists. split; [apply GET_online |].
  intros r Hr.
  assert (Hterm : or_else (get "searchTerm" ps) "" = term).
  { rewrite Hget. simpl. by rewrite trim_nonempty_truthy. }
  destruct (returned_row_matches catalog ps r (searchClause term) Hr) as [Hin Hm].
  { apply clauses_elem. left. by rewrite Hterm. }
  split; [done |]. unfold searchClause in Hm. cbn [matches existsb] in Hm.
  rewrite orb_false_r in Hm.
  apply orb_true_iff in Hm as [Hm | Hm]; apply matchString_insensitive in Hm.
  - left. by destruct Hm as (s & [= <-] & Hs).
  - right. destruct Hm as (s & Hd & Hs). by exists s.
Qed.

Lemma C7_witness :
  exists rows,
    GET (findManyOn (Online sampleCatalog))
      [("searchTerm", (NBSP ++ " TECHNO" ++ IDEOGRAPHIC_SPACE)%string)]
    = ({| body := Rows rows; status := 200 |}, [])
    /\ forall r, r ∈ rows -> r ∈ sampleCatalog /\ mentions "TECHNO" r.
Proof.
  apply (C7_rows_mention_the_trimmed_term sampleCatalog
           [("searchTerm", (NBSP ++ " TECHNO" ++ IDEOGRAPHIC_SPACE)%string)]
           (NBSP ++ " TECHNO" ++ IDEOGRAPHIC_SPACE)%string);
    [reflexivity | discriminate].
Defined.

Lemma not_mentions term r :
  includes (toLowerCase term) (toLowerCase (title r)) = false ->
  match description r with
  | Some d => includes (toLowerCase term) (toLowerCase d) = false
  | None => True
  end ->
  ~ mentions term r.
Proof.
  intros Ht Hd [H | (d & Hdesc & H)]; apply includes_spec in H.
  - congruence.
  - rewrite Hdesc in Hd. congruence.
Qed.

(** C7 as stated fails: the term [" pad"] is not empty, the row titled
    "Pad One" is returned for it (the handler searches for the trimmed
    ["pad"]), and that row contains [" pad"] nowhere; a term of blanks only
    adds no clause at all, so every row is returned. *)
Lemma C7_counterexample :
  (get "searchTerm" [("searchTerm", " pad")] = Some " pad"
   /\ " pad" <> EmptyString
   /\ GET (findManyOn (Online [padOne])) [("searchTerm", " pad")]
      = ({| body := Rows [padOne]; status := 200 |}, [])
   /\ ~ mentions " pad" padOne)
  /\ (get "searchTerm" [("searchTerm", " ")] = Some " "
      /\ " " <> EmptyString
      /\ GET (findManyOn (Online [kick])) [("searchTerm", " ")]
         = ({| body := Rows [kick]; status := 200 |}, [])
      /\ ~ mentions " " kick).
Proof.
  split; (split; [reflexivity |]); (split; [discriminate |]);
    (split; [reflexivity |]); (apply not_mentions; [vm_compute; reflexivity | exact I]).
Qed.

(** C8: when the parsed [genres] list is not empty, every returned row has a
    genre identifier and it is a member of that list. *)
Theorem C8_rows_have_a_listed_genre catalog ps :
  listParam "genres" ps <> [] ->
  exists rows,
    GET (findManyOn (Online catalog)) ps
    = ({| body := Rows rows; status := 200 |}, [])
    /\ forall r, r ∈ rows ->
         exists g, genreId r = Some g /\ g ∈ listParam "genres" ps.
Proof.
  intros Hne. eexists. split; [apply GET_online |].
  intros r Hr.
  destruct (returned_row_matches catalog ps r
              (OnGenreId (In_ (listParam "genres" ps))) Hr) as [_ Hm].
  { apply clauses_elem. right. by left. }
  by apply matchString_in in Hm.
Qed.

Lemma C8_witness :
  exists rows,
    GET (findManyOn (Online sampleCatalog)) [("genres", "techno,,dub")]
    = ({| body := Rows rows; status := 200 |}, [])
    /\ forall r, r ∈ rows ->
         exists g, genreId r = Some g
                   /\ g ∈ listParam "genres" [("genres", "techno,,dub")].
Proof.
  apply (C8_rows_have_a_listed_genre sampleCatalog [("genres", "techno,,dub")]).
  discriminate.
Defined.

Lemma listParam_without_same name ps : listParam name (without name ps) = [].
Proof. unfold listParam. by rewrite get_without_same. Qed.

Lemma listParam_without_other name name' ps :
  name' <> name -> listParam name' (without name ps) = listParam name' ps.
Proof. intros H. unfold listParam. by rewrite get_without_other. Qed.

(** C10: for each list-valued parameter the parsed list is the comma
    separated segments without the empty ones, no set-membership clause ever
    carries an empty segment, and a value made of commas only parses to the
    empty list: it adds no clause for its dimension and the query object is
    the one built when the parameter is not there. *)
Theorem C10_empty_segments_are_discarded ps d raw :
  d <> SearchTerm ->
  get (paramName d) ps = Some raw ->
  (forall g, g ∈ listParam (paramName d) ps <->
             g ∈ split "," raw /\ g <> EmptyString)
  /\ (forall c, c ∈ clauses ps -> EmptyString ∉ inValues c)
  /\ (onlyCommas raw = true ->
      listParam (paramName d) ps = []
      /\ (forall c, c ∈ clauses ps -> dimension c <> d)
      /\ whereClause ps = whereClause (without (paramName d) ps)).
Proof.
  intros Hd Hget. split; [| split].
  - intros g. rewrite listParam_elem, Hget. naive_solver.
  - intros c Hc Hin. apply clauses_elem in Hc.
    destruct Hc as [[-> _] | [[-> _] | [[-> _] | [-> _]]]]; simpl in Hin;
      [by apply elem_of_nil in Hin | | |];
      apply listParam_elem in Hin; naive_solver.
  - intros Hraw.
    pose proof (listParam_onlyCommas _ _ _ Hget Hraw) as Hnil.
    split; [done |]. split.
    + intros c Hc. apply clauses_elem in Hc.
      destruct Hc as [[-> _] | [[-> H] | [[-> H] | [-> H]]]];
        destruct d; simpl in *; congruence.
    + unfold whereClause, clauses.
      destruct d; [done | | |]; simpl in Hnil |- *;
        rewrite (get_without_other _ "searchTerm") by done;
        rewrite ?listParam_without_same, ?Hnil;
        rewrite ?(listParam_without_other _ "genres"),
                ?(listParam_without_other _ "vstTypes"),
                ?(listParam_without_other _ "presetTypes") by done;
        reflexivity.
Qed.

Lemma C10_witness :
  (forall g, g ∈ listParam "genres" [("searchTerm", "pad"); ("genres", ",,")] <->
             g ∈ split "," ",," /\ g <> EmptyString)
  /\ (forall c, c ∈ clauses [("searchTerm", "pad"); ("genres", ",,")] ->
                EmptyString ∉ inValues c)
  /\ (onlyCommas ",," = true ->
      listParam "genres" [("searchTerm", "pad"); ("genres", ",,")] = []
      /\ (forall c, c ∈ clauses [("searchTerm", "pad"); ("genres", ",,")] ->
                    dimension c <> Genres)
      /\ whereClause [("searchTerm", "pad"); ("genres", ",,")]
         = whereClause (without "genres" [("searchTerm", "pad"); ("genres", ",,")])).
Proof.
  apply (C10_empty_segments_are_discarded
           [("searchTerm", "pad"); ("genres", ",,")] Genres ",,");
    [discriminate | reflexivity].
Defined.

End MarketplaceFacts.

(** ** The preset pack card *)

Module AudioPreviewFacts.
Import AudioPreview.

Lemma filter_keeps_all {A} (p : A -> bool) (l : list A) :
  Forall (fun x => p x = true) l -> List.filter p l = l.
Proof. induction 1 as [|x l Hx _ IH]; simpl; [done | by rewrite Hx, IH]. Qed.

(** *** Listeners are function objects created earlier *)

Lemma known_withState f c : listenersKnown c -> listenersKnown (withState f c).
Proof. done. Qed.

Lemma known_toast t c : listenersKnown c -> listenersKnown (toast t c).
Proof. done. Qed.

Lemma known_setPaused b a c :
  listenersKnown c -> listenersKnown (withHeap (alter (setPaused b) a) c).
Proof.
  unfold listenersKnown. simpl. intros H.
  apply Forall_alter; [exact H |]. by intros [s p ls].
Qed.

Lemma known_newFunction c :
  listenersKnown c -> listenersKnown (newFunction c).2.
Proof.
  unfold listenersKnown. simpl. intros H.
  eapply Forall_impl; [exact H |]. intros e He. simpl in He.
  eapply Forall_impl; [exact He |]. intros l Hl. simpl in Hl. lia.
Qed.

Lemma known_addEventListener a type f body c :
  f < functions c -> listenersKnown c ->
  listenersKnown (addEventListener a type f body c).
Proof.
  unfold listenersKnown. simpl. intros Hf H.
  apply Forall_alter; [exact H |]. intros [s p ls] _ Hls. simpl in *.
  apply Forall_app. split; [exact Hls |]. by apply Forall_singleton.
Qed.

Lemma known_removeEventListener a type f c :
  listenersKnown c -> listenersKnown (removeEventListener a type f c).
Proof.
  unfold listenersKnown. simpl. intros H.
  apply Forall_alter; [exact H |]. intros [s p ls] _ Hls. simpl in *.
  apply List.Forall_forall. intros l [Hl _]%filter_In.
  by eapply List.Forall_forall in Hls.
Qed.

Lemma known_newAudio url c :
  listenersKnown c -> listenersKnown (newAudio url c).2.
Proof.
  unfold listenersKnown. simpl. intros H.
  apply Forall_app. split; [exact H |]. apply Forall_singleton. simpl. constructor.
Qed.

Lemma known_cleanupAudio closureAudio c :
  listenersKnown c -> listenersKnown (cleanupAudio closureAudio c).
Proof.
  intros H. destruct closureAudio as [a|]; [| done]. unfold cleanupAudio.
  apply (known_setPaused true a) in H. apply known_newFunction in H.
  apply (known_removeEventListener a "ended" (functions c)) in H.
  exact H.
Qed.

Lemma known_togglePlay r presetId soundPreviewUrl c :
  listenersKnown c -> listenersKnown (togglePlay r presetId soundPreviewUrl c).
Proof.
  intros H. unfold togglePlay.
  destruct soundPreviewUrl as [url|]; [| done].
  destruct (Js.truthy url); simpl; [| done].
  set (c' := if _ : bool then cleanupAudio (audio r) c else c).
  assert (H' : listenersKnown c').
  { subst c'. destruct (_ && _); [by apply known_cleanupAudio | done]. }
  clearbody c'. clear H.
  destruct (_ || _).
  - apply (known_newAudio url) in H'.
    set (c1 := (newAudio url c').2) in *.
    apply known_newFunction in H'.
    apply (known_addEventListener (List.length (heap c')) "ended"
             (functions c1) EndedHandler) in H'; [| simpl; lia].
    apply known_newFunction in H'.
    apply (known_addEventListener (List.length (heap c')) "error"
             (S (functions c1)) (ErrorHandler (audio r))) in H'; [| simpl; lia].
    apply (known_setPaused false (List.length (heap c'))) in H'.
    exact H'.
  - destruct (audio r) as [a|]; [| done].
    destruct (isPlaying r); by apply known_setPaused.
Qed.

Lemma known_commit rendered c :
  listenersKnown c -> listenersKnown (commit rendered c).
Proof.
  intros H. unfold commit, effectCleanup.
  repeat case_decide; auto using known_cleanupAudio.
Qed.

Lemma known_runCallback body c :
  listenersKnown c -> listenersKnown (runCallback body c).
Proof.
  intros H. destruct body; simpl; [done | | done].
  by apply known_cleanupAudio.
Qed.

Lemma known_fire a type c : listenersKnown c -> listenersKnown (fire a type c).
Proof.
  intros H. unfold fire. destruct (heap c !! a) as [e|]; [| done].
  generalize (List.filter (fun l => bool_decide (event l = type)) (listeners e)).
  intros ls. revert c H.
  induction ls as [|l ls IH]; intros c H; simpl; [done |].
  by apply IH, known_runCallback.
Qed.

(** The invariant holds all through the life of a card. *)
Lemma reachable_listenersKnown c : reachable c -> listenersKnown c.
Proof.
  induction 1 as [| presetId url c _ IH | a type c _ IH | closureAudio c _ IH].
  - constructor.
  - by apply known_commit, known_togglePlay.
  - by apply known_commit, known_fire.
  - by apply known_commit, known_cleanupAudio, known_toast.
Qed.

(** [removeEventListener] with a function object that was never registered
    changes nothing. *)
Lemma removeEventListener_fresh a type c :
  listenersKnown c ->
  heap (removeEventListener a type (functions c) c) = heap c.
Proof.
  intros Hknown. unfold removeEventListener. simpl.
  apply list_eq. intros i. rewrite list_lookup_alter.
  case_decide as Hi; [subst i |]; [| done].
  destruct (heap c !! a) as [e|] eqn:He; [| done]. simpl. f_equal.
  destruct e as [s p ls]. unfold setListeners. simpl. f_equal.
  apply filter_keeps_all.
  eapply Forall_lookup_1 in Hknown; [| exact He]. simpl in Hknown.
  eapply Forall_impl; [exact Hknown |]. intros l Hl. simpl in Hl.
  apply negb_true_iff, bool_decide_eq_false. intros [_ Hfn]. lia.
Qed.

(** [cleanupAudio] stops the element it was created for and detaches no
    listener from any element: the function it hands to
    [removeEventListener] is a new object. *)
Lemma cleanupAudio_detaches_nothing closureAudio c :
  listenersKnown c ->
  listeners <$> heap (cleanupAudio closureAudio c) = listeners <$> heap c.
Proof.
  intros Hknown. destruct closureAudio as [a|]; [| done].
  unfold cleanupAudio. simpl.
  assert (Hpaused : listenersKnown (pause a c)).
  { unfold listenersKnown, pause. simpl.
    apply Forall_alter; [exact Hknown |]. by intros [s p ls]. }
  pose proof (removeEventListener_fresh a "ended" (pause a c) Hpaused) as Hrm.
  unfold removeEventListener in Hrm. simpl in Hrm. rewrite Hrm.
  rewrite (list_fmap_alter listeners (setPaused true) id).
  - by apply list_alter_id.
  - apply Forall_true. by intros [s p ls].
Qed.

(** After the renders of [commit] the [audio] cell is the one the last
    render saw: a further render has nothing to clean up. *)
Lemma commit_settles rendered c :
  effectCleanup (audio (state (effectCleanup rendered c))) (commit rendered c)
  = commit rendered c.
Proof.
  assert (Hsame : forall r d, audio (state d) = r -> effectCleanup r d = d)
    by (intros r d H; unfold effectCleanup; by rewrite decide_True).
  unfold commit. set (c1 := effectCleanup rendered c).
  destruct (decide (audio (state c1) = audio (state c))) as [H1 | H1].
  - rewrite (Hsame (audio (state c)) c1) by done. by apply Hsame.
  - assert (effectCleanup (audio (state c)) c1
            = cleanupAudio (audio (state c)) c1) as ->
      by (unfold effectCleanup; by rewrite decide_False).
    apply Hsame.
    destruct (audio (state c)) as [a|] eqn:Ha; [| done].
    assert (audio (state c1) = None) as ->; [| done].
    subst c1. unfold effectCleanup in *.
    destruct (decide (audio (state c) = rendered)); [congruence |].
    destruct rendered; simpl in *; [done | congruence].
Qed.

(** In every state a card can be in, [cleanupAudio] leaves the listeners of
    every audio element attached. *)
Lemma cleanupAudio_never_detaches closureAudio c :
  reachable c ->
  listeners <$> heap (cleanupAudio closureAudio c) = listeners <$> heap c.
Proof. intros H. by apply cleanupAudio_detaches_nothing, reachable_listenersKnown. Qed.

(** No clean-up runs when the [audio] cell is the one the render saw. *)
Lemma commit_stable rendered c :
  audio (state c) = rendered -> commit rendered c = c.
Proof.
  intros H. unfold commit.
  assert (effectCleanup rendered c = c) as ->
    by (unfold effectCleanup; by rewrite decide_True).
  unfold effectCleanup. by rewrite decide_True.
Qed.

(** [togglePlay] for the preset that is active on element [a]. *)
Lemma togglePlay_same r presetId a previewUrl c :
  activePreset r = Some presetId ->
  audio r = Some a ->
  Js.truthy previewUrl = true ->
  togglePlay r presetId (Some previewUrl) c
  = if isPlaying r then setIsPlaying false (pause a c)
    else setIsPlaying true (play a c).
Proof.
  intros Hactive Haudio Hurl. unfold togglePlay.
  rewrite Hurl, Hactive, Haudio. simpl.
  rewrite bool_decide_eq_true_2 by done. simpl.
  by rewrite andb_false_r.
Qed.

(** C9: in the state where [presetId] is playing on element [a], a click on
    its button pauses [a] and a second click plays [a] again; the [audio]
    cell holds the same handle throughout, no element and no function object
    is created, and nothing but the [paused] flag of [a] changes. *)
Theorem C9_toggle_pauses_and_resumes_the_same_element c presetId a previewUrl :
  state c = {| activePreset := Some presetId; audio := Some a; isPlaying := true |} ->
  Js.truthy previewUrl = true ->
  state (click presetId (Some previewUrl) c)
  = {| activePreset := Some presetId; audio := Some a; isPlaying := false |}
  /\ heap (click presetId (Some previewUrl) c) = alter (setPaused true) a (heap c)
  /\ functions (click presetId (Some previewUrl) c) = functions c
  /\ state (click presetId (Some previewUrl) (click presetId (Some previewUrl) c))
     = {| activePreset := Some presetId; audio := Some a; isPlaying := true |}
  /\ heap (click presetId (Some previewUrl) (click presetId (Some previewUrl) c))
     = alter (setPaused false) a (alter (setPaused true) a (heap c))
  /\ functions (click presetId (Some previewUrl) (click presetId (Some previewUrl) c))
     = functions c
  /\ List.length (heap (click presetId (Some previewUrl)
                          (click presetId (Some previewUrl) c)))
     = List.length (heap c).
Proof.
  intros Hstate Hurl. destruct c as [st hp fs ts]. simpl in Hstate. subst st.
  assert (Hclick : forall playing hp',
    click presetId (Some previewUrl)
      {| state := {| activePreset := Some presetId; audio := Some a;
                     isPlaying := playing |};
         heap := hp'; functions := fs; toasts := ts |}
    = {| state := {| activePreset := Some presetId; audio := Some a;
                     isPlaying := negb playing |};
         heap := alter (setPaused playing) a hp';
         functions := fs; toasts := ts |}).
  { intros playing hp'. unfold click. cbn [state audio].
    rewrite (togglePlay_same _ presetId a previewUrl) by done.
    rewrite commit_stable; by destruct playing. }
  rewrite !Hclick. cbn. by rewrite !length_alter.
Qed.

Lemma C9_witness :
  let playing := click "B" (Some "b.mp3") mount in
  state (click "B" (Some "b.mp3") playing)
  = {| activePreset := Some "B"; audio := Some 0; isPlaying := false |}
  /\ heap (click "B" (Some "b.mp3") playing) = alter (setPaused true) 0 (heap playing)
  /\ functions (click "B" (Some "b.mp3") playing) = functions playing
  /\ state (click "B" (Some "b.mp3") (click "B" (Some "b.mp3") playing))
     = {| activePreset := Some "B"; audio := Some 0; isPlaying := true |}
  /\ heap (click "B" (Some "b.mp3") (click "B" (Some "b.mp3") playing))
     = alter (setPaused false) 0 (alter (setPaused true) 0 (heap playing))
  /\ functions (click "B" (Some "b.mp3") (click "B" (Some "b.mp3") playing))
     = functions playing
  /\ List.length (heap (click "B" (Some "b.mp3") (click "B" (Some "b.mp3") playing)))
     = List.length (heap playing).
Proof.
  apply (C9_toggle_pauses_and_resumes_the_same_element
           (click "B" (Some "b.mp3") mount) "B" 0 "b.mp3"); reflexivity.
Defined.

(** C2, the code at the failing input: "B" is playing on element 0 and play
    is requested for "A".  The handler stops element 0 and creates element 1,
    but both listeners of element 0 stay attached, so two elements that are
    not torn down exist.  In the renders that follow, the effect clean-ups
    reset the cells and stop the new element as well. *)
Theorem C2_switching_leaves_the_old_listeners_attached :
  let playingB := click "B" (Some "b.mp3") mount in
  let handled := togglePlay (state playingB) "A" (Some "a.mp3") playingB in
  let settled := click "A" (Some "a.mp3") playingB in
  state playingB = {| activePreset := Some "B"; audio := Some 0; isPlaying := true |}
  /\ state handled = {| activePreset := Some "A"; audio := Some 1; isPlaying := true |}
  /\ (paused <$> heap handled) = [true; false]
  /\ (listeners <$> heap handled) !! 0 = (listeners <$> heap playingB) !! 0
  /\ (List.length <$> (listeners <$> heap handled)) = [2; 2]
  /\ List.length (notTornDown handled) = 2
  /\ state settled = {| activePreset := None; audio := None; isPlaying := false |}
  /\ (paused <$> heap settled) = [true; true]
  /\ (List.length <$> (listeners <$> heap settled)) = [2; 2].
Proof. repeat split; reflexivity. Qed.

End AudioPreviewFacts.

(** ** The item actions hook *)

Module ItemActionsFacts.
Import ItemActions.

Lemma cartContains_app x (s : CartState) entries more :
  cartItems s = entries ++ more ->
  cartContains x s = existsb (refersTo x) entries || existsb (refersTo x) more.
Proof. intros H. unfold cartContains. by rewrite H, existsb_app. Qed.

(** Once the re-fetch of the cart has loaded, the local cart collection is
    the list it returned, whatever the handler did before. *)
Lemma settleFetch_loaded lifecycle entries s :
  cartItems (settleFetch lifecycle CART (Loaded entries) s) = entries.
Proof. reflexivity. Qed.

Lemma refersTo_optimisticEntry props created updated :
  refersTo (itemId props) (optimisticEntry props created updated) = true.
Proof.
  unfold refersTo, optimisticEntry. cbn [entryId].
  by rewrite bool_decide_eq_true_2.
Qed.

Lemma rejected_add_without_refetch_keeps_entries
    props (lifecycle : Thunk -> bool -> CartState -> CartState)
    created updated reason s :
  (forall t b s', cartItems (lifecycle t b s') = cartItems s') ->
  cartItems (handleAddToCart props lifecycle created updated
               (Rejected reason) NotLoaded s).1
  = cartItems s ++ [optimisticEntry props created updated].
Proof.
  intros Hkeep. unfold handleAddToCart, handleAddToCart_settle. simpl.
  by rewrite !Hkeep.
Qed.

(** C3 (amended): right after the optimistic dispatch the local cart has an
    entry for the item.  When the [addToCart] thunk is rejected the handler
    dispatches [fetchCartItems] for the cart, once, and does nothing else to
    the store.  When that fetch loads, the local cart collection is exactly
    the list it returned: the optimistic insert is not left in it, and the
    item is there only as far as the authoritative cart has an entry for it.
    When that fetch does not load either, the store is what the reducers of
    the two rejected thunks make of the optimistic state, and as far as they
    leave the cart entries alone the item is still in the local cart. *)
Theorem C3_optimistic_insert_then_refetch
    props lifecycle created updated reason entries s :
  cartContains (itemId props)
    (handleAddToCart_optimistic props created updated s) = true
  /\ cartItems (handleAddToCart props lifecycle created updated
                  (Rejected reason) (Loaded entries) s).1 = entries
  /\ cartContains (itemId props)
       (handleAddToCart props lifecycle created updated
          (Rejected reason) (Loaded entries) s).1
     = existsb (refersTo (itemId props)) entries
  /\ dispatches (fetchCartItems CART)
       (handleAddToCart props lifecycle created updated
          (Rejected reason) (Loaded entries) s).2 = 1
  /\ dispatches (fetchCartItems CART)
       (handleAddToCart props lifecycle created updated
          (Rejected reason) NotLoaded s).2 = 1
  /\ (handleAddToCart props lifecycle created updated
        (Rejected reason) NotLoaded s).1
     = lifecycle (fetchCartItems CART) false
         (lifecycle (addToCart (itemId props) CART (itemType props)) false
            (handleAddToCart_optimistic props created updated s))
  /\ ((forall t b s', cartItems (lifecycle t b s') = cartItems s') ->
      cartContains (itemId props)
        (handleAddToCart props lifecycle created updated
           (Rejected reason) NotLoaded s).1 = true).
Proof.
  split; [| split; [| split; [| split; [| split; [| split]]]]].
  - rewrite (cartContains_app _ _ (cartItems s)
               [optimisticEntry props created updated]) by done.
    simpl. rewrite refersTo_optimisticEntry. apply orb_true_r.
  - reflexivity.
  - reflexivity.
  - reflexivity.
  - reflexivity.
  - reflexivity.
  - intros Hkeep. unfold cartContains.
    rewrite (rejected_add_without_refetch_keeps_entries _ _ _ _ _ _ Hkeep).
    rewrite existsb_app. simpl. rewrite refersTo_optimisticEntry.
    apply orb_true_r.
Qed.

(** C3 as stated fails: here the cart is empty, the [addToCart] call is
    rejected and the re-fetch of the cart does not load either (the network
    is down, say), with reducers that leave the entries alone when a thunk is
    rejected; after the handler the optimistic entry is still in the local
    cart, and with it the item. *)
Lemma C3_counterexample :
  let props := {| itemId := "p1"; itemType := PRESET;
                  contentViewMode := None; requestViewMode := None |} in
  let before := {| cartItems := []; wishlistItems := []; loading := ∅ |} in
  let after := (handleAddToCart props (fun _ _ s => s) 20 21
                  (Rejected (ErrorInstance "Failed to fetch"))
                  NotLoaded before).1 in
  cartContains "p1" before = false
  /\ cartContains "p1" (handleAddToCart_optimistic props 20 21 before) = true
  /\ cartItems after = [optimisticEntry props 20 21]
  /\ cartContains "p1" after = true.
Proof. repeat split; reflexivity. Qed.

Lemma held_serverAdd_cart x s : held x (serverAdd CART x s).
Proof.
  unfold serverAdd, held. case_bool_decide as H; simpl in *.
  - by left.
  - left. apply elem_of_app. right. by apply list_elem_of_singleton.
Qed.

(** The request of the move mutation, handled by the cart API: the item
    leaves the wish list and is in the cart. *)
Lemma serve_move props s :
  itemId props ∈ serverWishlist s ->
  serve (request (moveItemMutation props) WISHLIST) s
  = serverAdd CART (itemId props) (serverRemove WISHLIST (itemId props) s).
Proof.
  intros Hin. unfold serve. simpl.
  by rewrite bool_decide_eq_true_2.
Qed.

(** C4: a successful move from the wish list to the cart sends exactly one
    request, a [PUT] that names the item, the source and the target;
    invalidates the "cart" queries once and the "wishlist" queries once;
    and, as the cart API handles that one request in one step, the item is
    in one of the two collections in every state the server goes through.
    The handler [handleMoveToCart] likewise dispatches the single [moveItem]
    thunk and then fetches each collection once. *)
Theorem C4_move_is_one_call_and_refreshes_each_collection_once
    props error s :
  requestsOf (mutate (moveItemMutation props) WISHLIST (Responded true error))
  = [ {| method := "PUT"; url := "/api/cart/wishlist";
         payload := [("itemId", itemId props); ("from", "wishlist"); ("to", "cart")] |} ]
  /\ invalidations "cart"
       (mutate (moveItemMutation props) WISHLIST (Responded true error)) = 1
  /\ invalidations "wishlist"
       (mutate (moveItemMutation props) WISHLIST (Responded true error)) = 1
  /\ (itemId props ∈ serverWishlist s ->
      Forall (held (itemId props))
        (serverStates
           (mutate (moveItemMutation props) WISHLIST (Responded true error)) s)
      /\ exists final,
           last (serverStates
                   (mutate (moveItemMutation props) WISHLIST (Responded true error)) s)
           = Some final
           /\ itemId props ∈ serverCart final)
  /\ changesDispatched (handleMoveToCart props WISHLIST Fulfilled)
     = [moveItem (itemId props) WISHLIST CART]
  /\ dispatches (fetchCartItems CART) (handleMoveToCart props WISHLIST Fulfilled) = 1
  /\ dispatches (fetchCartItems WISHLIST) (handleMoveToCart props WISHLIST Fulfilled) = 1.
Proof.
  split; [reflexivity |]. split; [reflexivity |]. split; [reflexivity |].
  split; [| split; [reflexivity | split; reflexivity]].
  intros Hin.
  change (serverStates
            (mutate (moveItemMutation props) WISHLIST (Responded true error)) s)
    with [s; serve (request (moveItemMutation props) WISHLIST) s].
  rewrite serve_move by done.
  pose proof (held_serverAdd_cart (itemId props)
                (serverRemove WISHLIST (itemId props) s)) as Hheld.
  split.
  - apply Forall_cons_2; [by right |].
    apply Forall_cons_2; [exact Hheld | apply Forall_nil_2].
  - eexists. split; [reflexivity |].
    unfold serverAdd. case_bool_decide as H; simpl in *; [done |].
    apply elem_of_app. right. by apply list_elem_of_singleton.
Qed.

Lemma C4_witness :
  let props := {| itemId := "p1"; itemType := PRESET;
                  contentViewMode := None; requestViewMode := None |} in
  let s := {| serverCart := ["p9"]; serverWishlist := ["p1"; "p2"] |} in
  Forall (held "p1")
    (serverStates (mutate (moveItemMutation props) WISHLIST (Responded true None)) s)
  /\ exists final,
       last (serverStates
               (mutate (moveItemMutation props) WISHLIST (Responded true None)) s)
       = Some final
       /\ "p1" ∈ serverCart final.
Proof.
  intros props s.
  destruct (C4_move_is_one_call_and_refreshes_each_collection_once props None s)
    as (_ & _ & _ & H & _).
  apply H. simpl. apply elem_of_cons. by left.
Defined.

(** For contrast: a removal from the wish list followed by an addition to
    the cart, as two requests, goes through a state of the server in which
    the item is in neither collection. *)
Lemma remove_then_add_has_a_gap :
  let props := {| itemId := "p1"; itemType := PRESET;
                  contentViewMode := None; requestViewMode := None |} in
  let s := {| serverCart := ["p9"]; serverWishlist := ["p1"; "p2"] |} in
  serverStates
    (mutate (removeItemMutation props) WISHLIST (Responded true None)
     ++ mutate (addToCartMutation props) tt (Responded true None)) s
  = [ s;
      {| serverCart := ["p9"]; serverWishlist := ["p2"] |};
      {| serverCart := ["p9"; "p1"]; serverWishlist := ["p2"] |} ]
  /\ ~ held "p1" {| serverCart := ["p9"]; serverWishlist := ["p2"] |}.
Proof.
  split; [reflexivity |]. unfold held. simpl.
  rewrite !elem_of_cons, !elem_of_nil. intros [[H | []] | [H | []]]; discriminate.
Qed.

(** C5, the code at the failing input: the view is the "uploaded" one and
    the server refuses the deletion; the handler has pushed the dashboard
    route all the same, before the error toast. *)
Theorem C5_failed_delete_still_navigates :
  handleDelete {| itemId := "p1"; itemType := PRESET;
                  contentViewMode := Some UPLOADED; requestViewMode := None |}
               (Responded false (Some "Not allowed"))
  = [ Fetch {| method := "DELETE"; url := "/api/PRESETs/p1"; payload := [] |};
      RouterPush "/dashboard/PRESETs";
      ToastError "Not allowed" ].
Proof. reflexivity. Qed.

(** The redirect of [handleDelete] does not look at how the deletion
    settles: with a content view mode set (and no request view to return
    to), the dashboard route is pushed on success, on a refusal and on a
    transport failure alike. *)
Lemma handleDelete_navigates_whatever_happens props settled :
  Js.truthy_opt (contentViewMode props) = true ->
  Js.truthy_opt (requestViewMode props) = false ->
  RouterPush ("/dashboard/" ++ itemType props ++ "s")%string
    ∈ handleDelete props settled.
Proof.
  intros Hview Hrequest. unfold handleDelete.
  rewrite Hrequest, Hview, andb_false_r.
  apply elem_of_app. right. apply elem_of_app. left.
  by apply list_elem_of_singleton.
Qed.

(** The part of C5 that holds: after a successful deletion in the
    "uploaded" view the dashboard route of the item type is pushed. *)
Lemma successful_delete_in_uploaded_view_navigates props error :
  contentViewMode props = Some UPLOADED ->
  RouterPush ("/dashboard/" ++ itemType props ++ "s")%string
    ∈ mutateSettle (deleteItemMutation props) tt (Responded true error).
Proof.
  intros Hview. unfold mutateSettle. simpl. rewrite decide_True by done.
  rewrite !elem_of_cons. by right; right; left.
Qed.

End ItemActionsFacts.

(** ** More about the catalog search route *)

Module CatalogQueryFacts.
Import Js JsFacts Marketplace MarketplaceFacts CatalogQuery.

#[local] Instance newest_first_transitive : Transitive newer_or_same.
Proof. intros x y z. unfold newer_or_same. lia. Qed.

#[local] Instance newest_first_total : Total newer_or_same.
Proof. intros x y. unfold newer_or_same. lia. Qed.

Lemma matches_searchClause r term :
  matches r (searchClause term) = true <-> mentions (trim term) r.
Proof.
  unfold searchClause, mentions. cbn [matches existsb].
  rewrite orb_false_r, orb_true_iff, !matchString_insensitive. split.
  - intros [(s & [= <-] & H) | (s & Hd & H)]; [by left | right; by exists s].
  - intros [H | (d & Hd & H)]; [left; by exists (title r) | right; by exists d].
Qed.

Lemma matches_vst r values :
  matches r (OnVst (VstType (In_ values))) = true <->
  exists v, vst r = Some v /\ vst_type v ∈ values.
Proof.
  cbn [matches matchVst]. rewrite matchString_in. split.
  - intros (s & Hs & Hin). destruct (vst r) as [v|]; [| done].
    injection Hs as <-. by exists v.
  - intros (v & -> & Hin). by exists (vst_type v).
Qed.

(** A row passes the query object exactly when it passes every filter the
    request switches on. *)
Lemma matchesWhere_satisfies ps r :
  matchesWhere (whereClause ps) r = true <-> satisfies ps r.
Proof.
  rewrite matchesWhere_whereClause, forallb_forall. unfold satisfies, searchTermOf.
  split.
  - intros Hall. repeat split.
    + intros Ht. apply matches_searchClause, Hall, list_elem_of_In, clauses_elem. by left.
    + intros Hg. apply matchString_in.
      apply (Hall (OnGenreId (In_ (listParam "genres" ps)))).
      apply list_elem_of_In, clauses_elem. right. by left.
    + intros Hv. apply matches_vst, Hall, list_elem_of_In, clauses_elem.
      right. right. by left.
    + intros Hp. apply matchString_in.
      apply (Hall (OnPresetType (In_ (listParam "presetTypes" ps)))).
      apply list_elem_of_In, clauses_elem. right. right. by right.
  - intros (Ht & Hg & Hv & Hp) c Hc.
    apply list_elem_of_In, clauses_elem in Hc.
    destruct Hc as [[-> H] | [[-> H] | [[-> H] | [-> H]]]].
    + by apply matches_searchClause, Ht.
    + by apply matchString_in, Hg.
    + by apply matches_vst, Hv.
    + by apply matchString_in, Hp.
Qed.

Lemma filter_submseteq {A} (p : A -> bool) (l : list A) : List.filter p l ⊆+ l.
Proof.
  induction l as [|x l IH]; simpl; [done |].
  destruct (p x); [by apply submseteq_skip | by apply submseteq_cons].
Qed.

(** X1: with a working database, the rows in the answer are exactly the
    catalog rows that pass every filter the request switches on: none that
    fails one is returned and none that passes all is left out. *)
Theorem X1_rows_are_exactly_the_rows_passing_all_filters catalog ps :
  exists rows,
    GET (findManyOn (Online catalog)) ps
    = ({| body := Rows rows; status := 200 |}, [])
    /\ forall r, r ∈ rows <-> r ∈ catalog /\ satisfies ps r.
Proof.
  eexists. split; [apply GET_online |]. intros r.
  rewrite merge_sort_Permutation, list_elem_of_In, filter_In.
  by rewrite matchesWhere_satisfies, list_elem_of_In.
Qed.

(** X2: whatever the filters, the rows of the answer come newest first, and
    no row is returned more often than the catalog holds it. *)
Theorem X2_rows_are_newest_first_and_not_multiplied catalog ps :
  exists rows,
    GET (findManyOn (Online catalog)) ps
    = ({| body := Rows rows; status := 200 |}, [])
    /\ StronglySorted newer_or_same rows
    /\ rows ⊆+ catalog.
Proof.
  eexists. split; [apply GET_online |]. split.
  - apply (StronglySorted_merge_sort _).
  - rewrite merge_sort_Permutation. apply filter_submseteq.
Qed.

(** *** The query depends on the request only through what is parsed *)

Lemma clauses_by_reading ps ps' :
  searchTermOf ps = searchTermOf ps' ->
  listParam "genres" ps = listParam "genres" ps' ->
  listParam "vstTypes" ps = listParam "vstTypes" ps' ->
  listParam "presetTypes" ps = listParam "presetTypes" ps' ->
  clauses ps = clauses ps'.
Proof.
  unfold searchTermOf, clauses, searchClause. by intros -> -> -> ->.
Qed.

Lemma findManyArgs_by_reading ps ps' :
  searchTermOf ps = searchTermOf ps' ->
  listParam "genres" ps = listParam "genres" ps' ->
  listParam "vstTypes" ps = listParam "vstTypes" ps' ->
  listParam "presetTypes" ps = listParam "presetTypes" ps' ->
  findManyArgs ps = findManyArgs ps'.
Proof.
  intros Ht Hg Hv Hp. unfold findManyArgs, whereClause.
  by rewrite (clauses_by_reading ps ps').
Qed.

Lemma findManyArgs_by_get ps ps' :
  (forall d, get (paramName d) ps = get (paramName d) ps') ->
  findManyArgs ps = findManyArgs ps'.
Proof.
  intros H.
  pose proof (H SearchTerm) as Ht. pose proof (H Genres) as Hg.
  pose proof (H VstTypes) as Hv. pose proof (H PresetTypes) as Hp.
  simpl in Ht, Hg, Hv, Hp.
  apply findManyArgs_by_reading; unfold searchTermOf, listParam;
    by rewrite ?Ht, ?Hg, ?Hv, ?Hp.
Qed.

(** *** Trimming *)

Lemma trimStart_step s :
  trimStart s
  = match afterWhiteSpace s with
    | Some rest => trimStart rest
    | None => s
    end.
Proof.
  destruct s as [|a [|b [|c s3]]]; simpl; try done.
  - by destruct (is_ws1 a).
  - destruct (is_ws1 a); [done |]. by destruct (is_ws2 a b).
  - destruct (is_ws1 a); [done |]. destruct (is_ws2 a b); [done |].
    by destruct (is_ws3 a b c).
Qed.

Lemma afterWhiteSpace_shorter s rest :
  afterWhiteSpace s = Some rest -> String.length rest < String.length s.
Proof.
  destruct s as [|a [|b [|c s3]]]; simpl; try done.
  - destruct (is_ws1 a); [| done]. intros [= <-]. simpl. lia.
  - destruct (is_ws1 a); [intros [= <-]; simpl; lia |].
    destruct (is_ws2 a b); [| done]. intros [= <-]. simpl. lia.
  - destruct (is_ws1 a); [intros [= <-]; simpl; lia |].
    destruct (is_ws2 a b); [intros [= <-]; simpl; lia |].
    destruct (is_ws3 a b c); [| done]. intros [= <-]. simpl. lia.
Qed.

Lemma afterWhiteSpace_app s rest more :
  afterWhiteSpace s = Some rest ->
  afterWhiteSpace (s ++ more) = Some (rest ++ more)%string.
Proof.
  destruct s as [|a [|b [|c s3]]]; simpl; try done.
  - destruct (is_ws1 a); [| done]. by intros [= <-].
  - destruct (is_ws1 a); [by intros [= <-] |].
    destruct (is_ws2 a b); [| done]. by intros [= <-].
  - destruct (is_ws1 a); [by intros [= <-] |].
    destruct (is_ws2 a b); [by intros [= <-] |].
    destruct (is_ws3 a b c); [| done]. by intros [= <-].
Qed.

(** What [trimStart] leaves does not start with white space. *)
Lemma trimStart_done s : afterWhiteSpace (trimStart s) = None.
Proof.
  remember (String.length s) as n eqn:Hn. revert s Hn.
  induction n as [n IH] using lt_wf_ind. intros s ->.
  rewrite trimStart_step. destruct (afterWhiteSpace s) as [rest|] eqn:Hs; [| done].
  eapply IH; [| reflexivity]. by apply afterWhiteSpace_shorter.
Qed.

(** White space in front of a text is removed whatever follows it. *)
Lemma trimStart_blank_app s more :
  trimStart s = EmptyString -> trimStart (s ++ more) = trimStart more.
Proof.
  remember (String.length s) as n eqn:Hn. revert s Hn.
  induction n as [n IH] using lt_wf_ind. intros s -> Hblank.
  rewrite trimStart_step in Hblank.
  destruct (afterWhiteSpace s) as [rest|] eqn:Hs.
  - rewrite (trimStart_step (s ++ more)), (afterWhiteSpace_app s rest more Hs).
    eapply IH; [| reflexivity | done]. by apply afterWhiteSpace_shorter.
  - by subst s.
Qed.

(** [trimEnd] cuts off a tail of white space. *)
Lemma trimEnd_split s :
  exists tail, s = (trimEnd s ++ tail)%string /\ trimStart tail = EmptyString.
Proof.
  induction s as [|a s (tail & IH & Htail)]; [by exists EmptyString |].
  cbn [trimEnd]. destruct (trimStart (String a s)) eqn:Hs.
  - by exists (String a s).
  - exists tail. split; [| done].
    change (String a s = String a (trimEnd s ++ tail)%string). by f_equal.
Qed.

Lemma trimEnd_idempotent s : trimEnd (trimEnd s) = trimEnd s.
Proof.
  induction s as [|a s IH]; [done |].
  cbn [trimEnd]. destruct (trimStart (String a s)) eqn:Hs; [done |].
  cbn [trimEnd]. destruct (trimStart (String a (trimEnd s))) eqn:Hcut.
  - destruct (trimEnd_split s) as (tail & Hsplit & Htail).
    rewrite Hsplit in Hs.
    change (String a (trimEnd s ++ tail)%string)
      with (String a (trimEnd s) ++ tail)%string in Hs.
    rewrite (trimStart_blank_app _ tail Hcut), Htail in Hs. discriminate.
  - by rewrite IH.
Qed.

Lemma trimEnd_keeps_head s :
  afterWhiteSpace s = None -> afterWhiteSpace (trimEnd s) = None.
Proof.
  intros Hs. destruct (trimEnd_split s) as (tail & Hsplit & _).
  destruct (afterWhiteSpace (trimEnd s)) as [rest|] eqn:Hcut; [| done].
  rewrite Hsplit in Hs. by rewrite (afterWhiteSpace_app _ rest tail Hcut) in Hs.
Qed.

(** [trim] removes everything a second [trim] would remove. *)
Lemma trim_idempotent s : trim (trim s) = trim s.
Proof.
  unfold trim.
  pose proof (trimEnd_keeps_head _ (trimStart_done s)) as Hhead.
  rewrite (trimStart_step (trimEnd (trimStart s))), Hhead.
  apply trimEnd_idempotent.
Qed.

Lemma get_head_other k v name ps : k <> name -> get name ((k, v) :: ps) = get name ps.
Proof. intros H. simpl. by rewrite decide_False. Qed.

(** X3: the handler reads the search term through [trim] only: the query
    built for a term is the query built for the trimmed term, and a term of
    white space only gives the query built without any term. *)
Theorem X3_search_term_counts_only_trimmed ps term :
  get "searchTerm" ps = Some term ->
  findManyArgs ps
  = findManyArgs (("searchTerm", trim term) :: without "searchTerm" ps)
  /\ (trim term = EmptyString ->
      findManyArgs ps = findManyArgs (without "searchTerm" ps)).
Proof.
  intros Hget.
  assert (Hterm : searchTermOf ps = trim term).
  { unfold searchTermOf. rewrite Hget. simpl. by destruct term. }
  split.
  - apply findManyArgs_by_reading.
    + rewrite Hterm. unfold searchTermOf. simpl.
      destruct (trim term) eqn:Ht; [done |]. simpl. rewrite <- Ht.
      symmetry. apply trim_idempotent.
    + unfold listParam. by rewrite get_head_other, get_without_other.
    + unfold listParam. by rewrite get_head_other, get_without_other.
    + unfold listParam. by rewrite get_head_other, get_without_other.
  - intros Hblank. apply findManyArgs_by_reading.
    + rewrite Hterm, Hblank. unfold searchTermOf. by rewrite get_without_same.
    + unfold listParam. by rewrite get_without_other.
    + unfold listParam. by rewrite get_without_other.
    + unfold listParam. by rewrite get_without_other.
Qed.

Lemma X3_witness :
  let term := (NBSP ++ "warm pad " ++ BOM)%string in
  let ps := [("genres", "house"); ("searchTerm", term)] in
  trim term = "warm pad"
  /\ findManyArgs ps
     = findManyArgs (("searchTerm", "warm pad") :: without "searchTerm" ps)
  /\ (trim term = EmptyString ->
      findManyArgs ps = findManyArgs (without "searchTerm" ps)).
Proof.
  intros term ps. split; [reflexivity |].
  apply (X3_search_term_counts_only_trimmed ps term).
  reflexivity.
Defined.

(** *** Letter case of the search term *)

Lemma toLowerCase_empty s : toLowerCase s = EmptyString <-> s = EmptyString.
Proof. by destruct s. Qed.

Lemma mentions_by_lower term term' r :
  toLowerCase term = toLowerCase term' -> mentions term r -> mentions term' r.
Proof.
  unfold mentions, containsInsensitive. intros H. rewrite H. done.
Qed.

Lemma satisfies_by_lower ps ps' r :
  toLowerCase (searchTermOf ps) = toLowerCase (searchTermOf ps') ->
  listParam "genres" ps = listParam "genres" ps' ->
  listParam "vstTypes" ps = listParam "vstTypes" ps' ->
  listParam "presetTypes" ps = listParam "presetTypes" ps' ->
  satisfies ps r -> satisfies ps' r.
Proof.
  intros Ht Hg Hv Hp (H1 & H2 & H3 & H4). unfold satisfies.
  rewrite <- Hg, <- Hv, <- Hp. repeat split; [| done..].
  intros Hne. apply (mentions_by_lower (searchTermOf ps)); [done |].
  apply H1. intros Hempty. apply Hne, toLowerCase_empty.
  rewrite <- Ht. by apply toLowerCase_empty.
Qed.

(** X4: the search does not see letter case: two requests whose trimmed
    search terms differ in case only, and whose list filters agree, get the
    same answer from the same catalog. *)
Theorem X4_search_ignores_letter_case catalog ps ps' :
  toLowerCase (searchTermOf ps) = toLowerCase (searchTermOf ps') ->
  listParam "genres" ps = listParam "genres" ps' ->
  listParam "vstTypes" ps = listParam "vstTypes" ps' ->
  listParam "presetTypes" ps = listParam "presetTypes" ps' ->
  GET (findManyOn (Online catalog)) ps = GET (findManyOn (Online catalog)) ps'.
Proof.
  intros Ht Hg Hv Hp. rewrite !GET_online.
  assert (List.filter (matchesWhere (whereClause ps)) catalog
          = List.filter (matchesWhere (whereClause ps')) catalog) as ->; [| done].
  apply filter_ext. intros r. apply eq_true_iff_eq.
  rewrite !matchesWhere_satisfies. split; by apply satisfies_by_lower.
Qed.

Lemma X4_witness :
  GET (findManyOn (Online sampleCatalog)) [("searchTerm", "deep BASS")]
  = GET (findManyOn (Online sampleCatalog)) [("searchTerm", " Deep bass ")].
Proof.
  apply (X4_search_ignores_letter_case sampleCatalog
           [("searchTerm", "deep BASS")] [("searchTerm", " Deep bass ")]);
    reflexivity.
Defined.

(** *** Lists in one parameter *)

Lemma includes_comma_cons c s :
  includes "," (String c s) = false ->
  c <> ","%char /\ includes "," s = false.
Proof.
  simpl. destruct (decide (","%char = c)) as [<- | Hc]; simpl; [done |].
  intros H. split; [congruence | done].
Qed.

Lemma split_comma_free x : includes "," x = false -> split "," x = [x].
Proof.
  induction x as [|c x IH]; [done |].
  intros [Hc Hx]%includes_comma_cons. simpl.
  rewrite decide_False by done. by rewrite IH.
Qed.

Lemma split_comma_app x rest :
  includes "," x = false ->
  split "," (x ++ "," ++ rest) = x :: split "," rest.
Proof.
  induction x as [|c x IH]; [done |].
  intros [Hc Hx]%includes_comma_cons. simpl.
  rewrite decide_False by done. by rewrite IH.
Qed.

Lemma split_join xs :
  xs <> [] -> Forall listable xs -> split "," (join "," xs) = xs.
Proof.
  intros Hne Hall. induction Hall as [|x rest [_ Hx] Hrest IH]; [done |].
  destruct rest as [|y rest]; simpl.
  - by apply split_comma_free.
  - rewrite split_comma_app by done. f_equal. by apply IH.
Qed.

Lemma filterBoolean_listable xs : Forall listable xs -> filterBoolean xs = xs.
Proof.
  induction 1 as [|x rest [Hx _] _ IH]; simpl; [done |].
  destruct x; [done |]. simpl. by rewrite IH.
Qed.

(** X5: round trip of a list parameter: identifiers that are not empty and
    hold no comma, joined with commas into one parameter value, are parsed
    back as the same list, in the same order (the empty list included). *)
Theorem X5_joined_list_parses_back name ps xs :
  Forall listable xs ->
  get name ps = Some (join "," xs) ->
  listParam name ps = xs.
Proof.
  intros Hall Hget. unfold listParam. rewrite Hget.
  destruct xs as [|x rest]; [done |].
  rewrite split_join by done. by apply filterBoolean_listable.
Qed.

Lemma X5_witness :
  listParam "genres" [("genres", join "," ["house"; "drum-and-bass"; "dub"])]
  = ["house"; "drum-and-bass"; "dub"].
Proof.
  apply (X5_joined_list_parses_back "genres"
           [("genres", join "," ["house"; "drum-and-bass"; "dub"])]
           ["house"; "drum-and-bass"; "dub"]).
  - repeat constructor; discriminate.
  - reflexivity.
Defined.

(** *** Parameters the handler does not read *)

Lemma get_app name ps1 ps2 :
  get name (ps1 ++ ps2)
  = match get name ps1 with
    | Some v => Some v
    | None => get name ps2
    end.
Proof.
  induction ps1 as [|[k v] ps1 IH]; simpl; [done |].
  by destruct (decide (k = name)).
Qed.

(** X6: a parameter with a name the handler does not read, and a repeated
    parameter after its first occurrence, change nothing in the query. *)
Theorem X6_unread_parameters_change_nothing ps1 k v ps2 :
  ~ known k \/ is_Some (get k ps1) ->
  findManyArgs (ps1 ++ (k, v) :: ps2) = findManyArgs (ps1 ++ ps2).
Proof.
  intros H. apply findManyArgs_by_get. intros d.
  rewrite !get_app. destruct (get (paramName d) ps1) eqn:Hd; [done |].
  simpl. destruct (decide (k = paramName d)) as [-> | Hk]; [| done].
  destruct H as [H | [w Hw]]; [| congruence].
  destruct H. by exists d.
Qed.

Lemma X6_witness :
  findManyArgs ([("genres", "house")] ++ ("genres", "techno") :: [("page", "2")])
  = findManyArgs ([("genres", "house")] ++ [("page", "2")]).
Proof.
  apply (X6_unread_parameters_change_nothing
           [("genres", "house")] "genres" "techno" [("page", "2")]).
  right. by eexists.
Defined.

(** *** Shape of the clause list *)

(** X7: the clause list holds at most one clause per filter dimension, in
    the fixed order search term, genres, VST types, preset types. *)
Theorem X7_one_clause_per_dimension_in_fixed_order ps :
  (dimension <$> clauses ps) `sublist_of` [SearchTerm; Genres; VstTypes; PresetTypes].
Proof.
  unfold clauses, push.
  destruct (truthy (trim _)), (nonempty (listParam "genres" ps)),
    (nonempty (listParam "vstTypes" ps)), (nonempty (listParam "presetTypes" ps));
    simpl;
    repeat first [ apply sublist_nil | apply sublist_skip | apply sublist_cons ].
Qed.

End CatalogQueryFacts.

(** ** More about the item actions hook *)

Module HookFacts.
Import ItemActions HookRest.

(** X8: each mutation that sends a request invalidates cached queries
    exactly when its [mutationFn] resolved, that is, when the request ended
    in an ok response whose body could be read; a response that is not ok, a
    transport failure and a body that cannot be read (also after an ok
    status) invalidate nothing.  It then invalidates exactly the keys of the
    collections it changed: "cart" for an addition to the cart, "wishlist"
    for an addition to the wish list, the pluralised item type for a
    deletion, both "cart" and "wishlist" for a move, the source collection
    for a removal. *)
Theorem X8_queries_are_invalidated_only_on_success props from r :
  invalidated (mutate (addToCartMutation props) tt r)
  = (if failed r then [] else ["cart"])
  /\ invalidated (mutate (addToWishlistMutation props) tt r)
     = (if failed r then [] else ["wishlist"])
  /\ invalidated (mutate (deleteItemMutation props) tt r)
     = (if failed r then [] else [(itemType props ++ "s")%string])
  /\ invalidated (mutate (moveItemMutation props) from r)
     = (if failed r then [] else ["cart"; "wishlist"])
  /\ invalidated (mutate (removeItemMutation props) from r)
     = (if failed r then [] else [collectionName from]).
Proof.
  destruct r as [[|] error | message | ok message]; repeat split;
    try reflexivity;
    unfold mutate, mutateSettle; simpl; by destruct (decide _).
Qed.

(** X9: each of these mutations shows exactly one toast once its request
    has settled: the success toast of the action after an ok response whose
    body could be read; otherwise an error toast, with the message of the
    transport failure, or with the message of the error that reading the body
    threw, or, for a readable response that is not ok, with its [error]
    property, or with the fallback text of the mutation when that property is
    missing or empty. *)
Theorem X9_one_toast_per_settled_mutation props from r fallback :
  shown (mutate (addToCartMutation props) tt r)
  = [ if failed r then Failure (failureMessage "Failed to add to cart" r)
      else Success (Js.capitalize (itemType props) ++ " added to cart") ]
  /\ shown (mutate (addToWishlistMutation props) tt r)
     = [ if failed r then Failure (failureMessage "Failed to add to wishlist" r)
         else Success (Js.capitalize (itemType props) ++ " added to wishlist") ]
  /\ shown (mutate (deleteItemMutation props) tt r)
     = [ if failed r
         then Failure (failureMessage ("Failed to delete " ++ itemType props) r)
         else Success (Js.capitalize (itemType props) ++ " deleted successfully") ]
  /\ shown (mutate (moveItemMutation props) from r)
     = [ if failed r then Failure (failureMessage "Failed to move item" r)
         else Success (Js.capitalize (itemType props) ++ " moved to cart") ]
  /\ shown (mutate (removeItemMutation props) from r)
     = [ if failed r then Failure (failureMessage "Failed to remove item" r)
         else Success (Js.capitalize (itemType props) ++ " removed from "
                       ++ collectionName from) ]
  /\ failureMessage fallback (Responded false (Some "")) = fallback
  /\ failureMessage fallback (Responded false None) = fallback
  /\ (forall ok message,
        failed (Unreadable ok message) = true
        /\ failureMessage fallback (Unreadable ok message) = message).
Proof.
  destruct r as [[|] error | message | ok message]; repeat split;
    try reflexivity;
    unfold mutate, mutateSettle; simpl; by destruct (decide _).
Qed.

(** X10: the body of the two addition requests names the item under
    [presetId] when the item type is PRESET, under [packId] when it is PACK,
    never under both, and is empty for any other item type. *)
Theorem X10_addition_body_names_the_item_once props :
  itemBody props
  = (if decide (itemType props = PRESET) then [("presetId", itemId props)]
     else if decide (itemType props = PACK) then [("packId", itemId props)]
     else [])
  /\ payload (request (addToCartMutation props) tt) = itemBody props
  /\ payload (request (addToWishlistMutation props) tt) = itemBody props.
Proof.
  split; [| by split]. unfold itemBody.
  destruct (decide (itemType props = PRESET)) as [Hp | Hp];
    destruct (decide (itemType props = PACK)) as [Hk | Hk];
    try (rewrite Hp in Hk; discriminate); reflexivity.
Qed.

Lemma UPLOADED_truthy : Js.truthy_opt (Some UPLOADED) = true.
Proof. reflexivity. Qed.

(** X11: after a successful deletion in the "uploaded" view (and with no
    request view to return to) the dashboard route of the item type is
    pushed twice: once by the handler itself, once by the success callback
    of the mutation. *)
Theorem X11_successful_delete_pushes_the_dashboard_twice props error :
  contentViewMode props = Some UPLOADED ->
  itemType props <> REQUEST \/ Js.truthy_opt (requestViewMode props) = false ->
  pushes (handleDelete props (Responded true error))
  = [ ("/dashboard/" ++ itemType props ++ "s")%string;
      ("/dashboard/" ++ itemType props ++ "s")%string ].
Proof.
  intros Hview Hrequest. unfold handleDelete, mutateSettle. simpl.
  rewrite Hview, UPLOADED_truthy. rewrite decide_True by done.
  destruct Hrequest as [Hne | Hno].
  - by rewrite bool_decide_eq_false_2.
  - by rewrite Hno, andb_false_r.
Qed.

Lemma X11_witness :
  pushes (handleDelete {| itemId := "k1"; itemType := PACK;
                          contentViewMode := Some UPLOADED;
                          requestViewMode := None |}
            (Responded true None))
  = [ "/dashboard/PACKs"; "/dashboard/PACKs" ].
Proof.
  apply (X11_successful_delete_pushes_the_dashboard_twice
           {| itemId := "k1"; itemType := PACK;
              contentViewMode := Some UPLOADED; requestViewMode := None |} None);
    [reflexivity | by right].
Defined.

(** X12: when no content view mode is passed to the hook (and there is no
    request view to return to), a deletion never navigates, however the
    request settles. *)
Theorem X12_delete_without_view_mode_never_navigates props r :
  Js.truthy_opt (contentViewMode props) = false ->
  itemType props <> REQUEST \/ Js.truthy_opt (requestViewMode props) = false ->
  pushes (handleDelete props r) = [].
Proof.
  intros Hview Hrequest.
  assert (Hnot : contentViewMode props <> Some UPLOADED).
  { intros H. rewrite H in Hview. discriminate. }
  assert (Hhandler :
    bool_decide (itemType props = REQUEST)
    && Js.truthy_opt (requestViewMode props) = false).
  { destruct Hrequest as [Hne | Hno].
    - by rewrite bool_decide_eq_false_2.
    - by rewrite Hno, andb_false_r. }
  unfold handleDelete, mutateSettle. rewrite Hhandler, Hview.
  destruct r as [[|] error | message | ok message]; simpl; [| done..].
  by rewrite decide_False.
Qed.

Lemma X12_witness :
  pushes (handleDelete {| itemId := "p1"; itemType := PRESET;
                          contentViewMode := None; requestViewMode := Some "mine" |}
            (Responded true None))
  = [].
Proof.
  apply (X12_delete_without_view_mode_never_navigates
           {| itemId := "p1"; itemType := PRESET;
              contentViewMode := None; requestViewMode := Some "mine" |}
           (Responded true None)); [reflexivity | by left].
Defined.

(** *** Letter case of the item type *)






(** X14: the thunks each handler dispatches, for every way they settle.
    Adding to the cart dispatches [addToCart] and then one [fetchCartItems]
    for the cart, after a success and after a failure alike; moving
    dispatches [moveItem] and fetches both collections only when the move was
    fulfilled; removing dispatches [deleteCartItem] with the name of the
    [CartType] member and fetches nothing.  Each shows exactly one toast. *)
Theorem X14_thunks_dispatched_by_the_handlers
    props lifecycle created updated added refetched s type :
  thunks (handleAddToCart props lifecycle created updated added refetched s).2
  = [addToCart (itemId props) CART (itemType props); fetchCartItems CART]
  /\ thunks (handleMoveToCart props type added)
     = moveItem (itemId props) type CART
       :: (if bool_decide (added = Fulfilled)
           then [fetchCartItems CART; fetchCartItems WISHLIST] else [])
  /\ thunks (handleRemoveItem props type added)
     = [deleteCartItem (itemId props) (cartTypeName type) (itemType props)]
  /\ List.length
       (shown (handleAddToCart props lifecycle created updated added refetched s).2) = 1
  /\ List.length (shown (handleMoveToCart props type added)) = 1
  /\ List.length (shown (handleRemoveItem props type added)) = 1.
Proof.
  destruct added as [|[message|]], type; repeat split; reflexivity.
Qed.

(** X16: when the re-fetch does not load and the other reducers leave the
    cart entries alone, the optimistic entry stays in the local cart,
    whether the addition itself was fulfilled or rejected. *)
Theorem X16_optimistic_entry_stays_when_the_refetch_does_not_load
    props (lifecycle : Thunk -> bool -> CartState -> CartState)
    created updated added s :
  (forall t b s', cartItems (lifecycle t b s') = cartItems s') ->
  cartItems (handleAddToCart props lifecycle created updated added NotLoaded s).1
  = cartItems s ++ [optimisticEntry props created updated]
  /\ cartContains (itemId props)
       (handleAddToCart props lifecycle created updated added NotLoaded s).1 = true.
Proof.
  intros Hkeep.
  assert (Hitems :
    cartItems (handleAddToCart props lifecycle created updated added NotLoaded s).1
    = cartItems s ++ [optimisticEntry props created updated]).
  { unfold handleAddToCart, handleAddToCart_settle.
    destruct added; simpl; by rewrite !Hkeep. }
  split; [exact Hitems |].
  unfold cartContains. rewrite Hitems, existsb_app. simpl.
  unfold refersTo at 2. simpl. rewrite bool_decide_eq_true_2 by done.
  simpl. apply orb_true_r.
Qed.

Lemma X16_witness :
  let props := {| itemId := "p1"; itemType := PRESET;
                  contentViewMode := None; requestViewMode := None |} in
  let s := {| cartItems := []; wishlistItems := []; loading := ∅ |} in
  cartItems (handleAddToCart props (fun _ _ s' => s') 5 6
               (Rejected OtherValue) NotLoaded s).1
  = cartItems s ++ [optimisticEntry props 5 6]
  /\ cartContains (itemId props)
       (handleAddToCart props (fun _ _ s' => s') 5 6
          (Rejected OtherValue) NotLoaded s).1 = true.
Proof.
  intros props s.
  apply (X16_optimistic_entry_stays_when_the_refetch_does_not_load
           props (fun _ _ s' => s') 5 6 (Rejected OtherValue) s).
  reflexivity.
Defined.

End HookFacts.

(** ** More about the preset pack card *)

Module CardFacts.
Import AudioPreview AudioPreviewFacts CardView.

(** *** What the primitives do to the audio elements *)

Lemma alter_last {A} (f : A -> A) (l : list A) (x : A) :
  alter f (List.length l) (l ++ [x]) = l ++ [f x].
Proof.
  replace (List.length l) with (List.length l + 0) by lia.
  by rewrite alter_app_r.
Qed.

Lemma alter_setPaused_twice b b' a (l : list AudioElement) :
  alter (setPaused b) a (alter (setPaused b') a l) = alter (setPaused b) a l.
Proof.
  revert a. induction l as [|e l IH]; intros [|a]; simpl; [done | done | | ].
  - by destruct e.
  - f_equal. apply IH.
Qed.

Lemma flags_setPaused b a (l : list AudioElement) :
  paused <$> alter (setPaused b) a l = alter (fun _ => b) a (paused <$> l).
Proof. apply list_fmap_alter, Forall_true. by intros [s p ls]. Qed.

Lemma sources_setPaused b a (l : list AudioElement) :
  src <$> alter (setPaused b) a l = src <$> l.
Proof.
  rewrite (list_fmap_alter src (setPaused b) id).
  - by apply list_alter_id.
  - apply Forall_true. by intros [s p ls].
Qed.

Lemma events_setPaused b a (l : list AudioElement) :
  (fun e => event <$> listeners e) <$> alter (setPaused b) a l
  = (fun e => event <$> listeners e) <$> l.
Proof.
  rewrite (list_fmap_alter _ (setPaused b) id).
  - by apply list_alter_id.
  - apply Forall_true. by intros [s p ls].
Qed.

(** With every listener a function object created earlier, [cleanupAudio]
    only sets the [paused] flag of its element and empties the cells. *)
Lemma cleanupAudio_Some a c :
  listenersKnown c ->
  state (cleanupAudio (Some a) c)
  = {| activePreset := None; audio := None; isPlaying := false |}
  /\ heap (cleanupAudio (Some a) c) = alter (setPaused true) a (heap c)
  /\ toasts (cleanupAudio (Some a) c) = toasts c.
Proof.
  intros Hknown. split; [done |]. split; [| done].
  assert (Hpaused : listenersKnown (pause a c)) by by apply known_setPaused.
  pose proof (removeEventListener_fresh a "ended" (pause a c) Hpaused) as Hrm.
  exact Hrm.
Qed.

(** *** The handler, case by case *)

(** [togglePlay] when a new element is created: for another preset than the
    active one, or with an empty [audio] cell. *)
Lemma togglePlay_new r presetId url c :
  Js.truthy url = true ->
  audio r = None \/ activePreset r <> Some presetId ->
  togglePlay r presetId (Some url) c
  = let c0 := if Js.truthy_opt (activePreset r)
                 && negb (bool_decide (activePreset r = Some presetId))
              then cleanupAudio (audio r) c else c in
    {| state := {| activePreset := Some presetId;
                   audio := Some (List.length (heap c0));
                   isPlaying := true |};
       heap := heap c0
               ++ [{| src := url; paused := false;
                      listeners :=
                        [ {| event := "ended"; fn := functions c0;
                             code := EndedHandler |};
                          {| event := "error"; fn := S (functions c0);
                             code := ErrorHandler (audio r) |} ] |}];
       functions := S (S (functions c0));
       toasts := toasts c0 |}.
Proof.
  intros Hurl Hnew. unfold togglePlay. rewrite Hurl. cbn [negb].
  set (c0 := if _ : bool then cleanupAudio (audio r) c else c). cbn zeta.
  assert (negb (bool_decide (is_Some (audio r)))
          || negb (bool_decide (activePreset r = Some presetId)) = true) as ->.
  { destruct Hnew as [-> | Hne].
    - by rewrite bool_decide_eq_false_2 by (by intros [? ?]).
    - rewrite (bool_decide_eq_false_2 (activePreset r = Some presetId)) by done.
      apply orb_true_r. }
  destruct c0 as [st hp fs ts].
  unfold newAudio, newFunction, addEventListener, play, setAudio,
    setActivePreset, setIsPlaying, withHeap, withState.
  cbn [heap state functions toasts]. f_equal.
  by rewrite !alter_last.
Qed.

Lemma click_no_preview presetId url c :
  Js.truthy_opt url = false ->
  click presetId url c
  = toast (ToastInfo "No preview available for this preset") c.
Proof.
  intros Hurl. unfold click, togglePlay.
  destruct url as [u|]; simpl in Hurl; rewrite ?Hurl; cbn [negb];
    by rewrite commit_stable.
Qed.

Lemma click_toggle presetId url a c :
  audio (state c) = Some a ->
  activePreset (state c) = Some presetId ->
  Js.truthy url = true ->
  click presetId (Some url) c
  = if isPlaying (state c) then setIsPlaying false (pause a c)
    else setIsPlaying true (play a c).
Proof.
  intros Haudio Hactive Hurl. unfold click.
  rewrite (togglePlay_same _ presetId a url) by done.
  rewrite commit_stable; [done |]. by destruct (isPlaying (state c)).
Qed.

Lemma click_start presetId url c :
  audio (state c) = None ->
  Js.truthy url = true ->
  click presetId (Some url) c
  = {| state := {| activePreset := Some presetId;
                   audio := Some (List.length (heap c));
                   isPlaying := true |};
       heap := heap c
               ++ [{| src := url; paused := false;
                      listeners :=
                        [ {| event := "ended"; fn := functions c;
                             code := EndedHandler |};
                          {| event := "error"; fn := S (functions c);
                             code := ErrorHandler None |} ] |}];
       functions := S (S (functions c));
       toasts := toasts c |}.
Proof.
  intros Haudio Hurl. unfold click.
  rewrite togglePlay_new by (done || by left). rewrite Haudio.
  assert ((if Js.truthy_opt (activePreset (state c))
              && negb (bool_decide (activePreset (state c) = Some presetId))
           then cleanupAudio None c else c) = c) as -> by by destruct (_ && _).
  cbn zeta. set (h := {| state := _; heap := _; functions := _; toasts := _ |}).
  unfold commit.
  assert (effectCleanup None h = h) as ->.
  { unfold effectCleanup. subst h. cbn [state audio]. by rewrite decide_False. }
  unfold effectCleanup. subst h. cbn [state audio]. by rewrite decide_True.
Qed.

Lemma click_switch presetId url a c :
  listenersKnown c ->
  audio (state c) = Some a ->
  a < List.length (heap c) ->
  activePreset (state c) <> Some presetId ->
  Js.truthy url = true ->
  state (click presetId (Some url) c)
  = {| activePreset := None; audio := None; isPlaying := false |}
  /\ (exists f g,
        heap (click presetId (Some url) c)
        = alter (setPaused true) a (heap c)
          ++ [{| src := url; paused := true;
                 listeners :=
                   [ {| event := "ended"; fn := f; code := EndedHandler |};
                     {| event := "error"; fn := g;
                        code := ErrorHandler (Some a) |} ] |}])
  /\ toasts (click presetId (Some url) c) = toasts c.
Proof.
  intros Hknown Haudio Ha Hactive Hurl. unfold click.
  pose proof (known_togglePlay (state c) presetId (Some url) c Hknown) as Hhandled.
  rewrite togglePlay_new in Hhandled |- * by (done || by right).
  rewrite Haudio in Hhandled |- *.
  set (c0 := if _ : bool then cleanupAudio (Some a) c else c) in *.
  assert (Hc0 : alter (setPaused true) a (heap c0) = alter (setPaused true) a (heap c)
                /\ List.length (heap c0) = List.length (heap c)
                /\ toasts c0 = toasts c).
  { subst c0. destruct (_ && _); [| done].
    destruct (cleanupAudio_Some a c Hknown) as (_ & -> & ->).
    by rewrite alter_setPaused_twice, length_alter. }
  destruct Hc0 as (Hheap0 & Hlen0 & Htoasts0).
  cbn zeta in Hhandled |- *.
  set (h := {| state := _; heap := _; functions := _; toasts := _ |}) in *.
  unfold commit. cbn [state audio].
  assert (Hfirst : effectCleanup (Some a) h = cleanupAudio (Some a) h).
  { unfold effectCleanup. subst h. cbn [state audio].
    rewrite decide_False; [done |]. intros [= H]. lia. }
  rewrite Hfirst.
  destruct (cleanupAudio_Some a h Hhandled) as (Hstate1 & Hheap1 & Htoasts1).
  pose proof (known_cleanupAudio (Some a) h Hhandled) as Hknown1.
  set (c1 := cleanupAudio (Some a) h) in *.
  assert (Hsecond : effectCleanup (audio (state h)) c1
                    = cleanupAudio (Some (List.length (heap c0))) c1).
  { unfold effectCleanup. rewrite Hstate1. subst h. cbn [state audio].
    by rewrite decide_False. }
  rewrite Hsecond.
  destruct (cleanupAudio_Some (List.length (heap c0)) c1 Hknown1)
    as (Hstate2 & Hheap2 & Htoasts2).
  split; [done |]. split.
  - exists (functions c0), (S (functions c0)).
    rewrite Hheap2, Hheap1. subst h. cbn [heap].
    rewrite alter_app_l by lia. rewrite Hheap0.
    rewrite <- (length_alter (setPaused true) (heap c) a) in Hlen0.
    rewrite Hlen0. by rewrite alter_last.
  - rewrite Htoasts2, Htoasts1. subst h. by cbn [toasts].
Qed.

(** *** Steps that start nothing *)

Lemma calmer_refl c : calmer c c.
Proof. split; auto. Qed.

Lemma calmer_trans c d e : calmer c d -> calmer d e -> calmer c e.
Proof.
  intros [Hs1 Hl1 Hn1 Hf1 Hst1] [Hs2 Hl2 Hn2 Hf2 Hst2]. split.
  - congruence.
  - congruence.
  - congruence.
  - auto.
  - destruct Hst2 as [[Hst2 Hh2] | (Hp2 & Ha2 & Hau2)].
    + rewrite Hst2, Hh2. exact Hst1.
    + destruct Hst1 as [[Hst1 _] | (_ & Ha1 & Hau1)].
      * rewrite <- Hst1. right. auto.
      * right. split; [done |]. split.
        -- destruct Ha2 as [Ha2 | [Ha2 Hau2']]; [by left |].
           rewrite Ha2, Hau2'. exact Ha1.
        -- destruct Hau2 as [Hau2 | Hau2]; [| by right].
           rewrite Hau2. exact Hau1.
Qed.

Lemma calmer_toast t c : calmer c (toast t c).
Proof. split; auto. Qed.

Lemma calmer_cleanupAudio closureAudio c :
  listenersKnown c -> calmer c (cleanupAudio closureAudio c).
Proof.
  intros Hknown. destruct closureAudio as [a|]; [| apply calmer_refl].
  destruct (cleanupAudio_Some a c Hknown) as (Hstate & Hheap & _).
  split.
  - unfold sources. rewrite Hheap. apply sources_setPaused.
  - unfold listenerEvents. rewrite Hheap. apply events_setPaused.
  - rewrite Hheap. apply length_alter.
  - unfold pausedFlags. rewrite Hheap, flags_setPaused. intros i.
    rewrite list_lookup_alter. case_decide; [| done].
    by destruct (_ !! a).
  - right. rewrite Hstate. auto.
Qed.

Lemma calmer_runCallback body c :
  listenersKnown c -> calmer c (runCallback body c).
Proof.
  intros Hknown. destruct body as [| closureAudio |]; simpl.
  - split; auto; right; auto.
  - eapply calmer_trans; [apply calmer_toast |].
    by apply calmer_cleanupAudio, known_toast.
  - split; auto; right; auto.
Qed.

Lemma calmer_fire a type c :
  listenersKnown c -> listenersKnown (fire a type c) /\ calmer c (fire a type c).
Proof.
  intros Hknown. split; [by apply known_fire |].
  unfold fire. destruct (heap c !! a) as [e|]; [| apply calmer_refl].
  generalize (List.filter (fun l => bool_decide (event l = type)) (listeners e)).
  intros ls.
  assert (forall d, listenersKnown d -> calmer c d ->
            calmer c (foldl (fun c l => runCallback (code l) c) d ls)) as H.
  { induction ls as [|l ls IH]; intros d Hd Hcd; simpl; [done |].
    apply IH; [by apply known_runCallback |].
    eapply calmer_trans; [exact Hcd | by apply calmer_runCallback]. }
  apply H; [done | apply calmer_refl].
Qed.

Lemma calmer_playRejected closureAudio c :
  listenersKnown c ->
  listenersKnown (playRejected closureAudio c)
  /\ calmer c (playRejected closureAudio c).
Proof.
  intros Hknown. unfold playRejected. split.
  - by apply known_cleanupAudio, known_toast.
  - eapply calmer_trans; [apply calmer_toast |].
    by apply calmer_cleanupAudio, known_toast.
Qed.

Lemma calmer_commit rendered c :
  listenersKnown c -> calmer c (commit rendered c).
Proof.
  intros Hknown. unfold commit.
  assert (forall r d, listenersKnown d ->
            listenersKnown (effectCleanup r d) /\ calmer d (effectCleanup r d)) as H.
  { intros r d Hd. unfold effectCleanup. case_decide.
    - split; [done | apply calmer_refl].
    - split; [by apply known_cleanupAudio | by apply calmer_cleanupAudio]. }
  destruct (H rendered c Hknown) as [Hk1 Hc1].
  destruct (H (audio (state c)) _ Hk1) as [_ Hc2].
  by eapply calmer_trans.
Qed.

(** *** The cells and the elements stay in agreement *)

Lemma coherent_mount : coherent mount.
Proof. split; simpl; try done; by intros [? ?]. Qed.

Lemma coherent_same c d :
  state d = state c -> heap d = heap c -> coherent c -> coherent d.
Proof.
  intros Hs Hh [Hv Hcur Hp Hpa Ha].
  split; unfold pausedFlags in *; rewrite ?Hs, ?Hh; auto.
Qed.

Lemma coherent_after_calm c d :
  coherent c -> listenersKnown d -> calmer c d ->
  coherent (commit (audio (state c)) d).
Proof.
  intros [Hv Hcur Hp Hpa Ha] Hknown [_ _ Hlen Hflags Hstate].
  destruct Hstate as [[Hs Hh] | (Hplay & Hactive & Haudio)].
  { rewrite commit_stable by by rewrite Hs.
    by apply (coherent_same c). }
  destruct (decide (audio (state d) = audio (state c))) as [Hsame | Hdiff].
  - rewrite commit_stable by done. split.
    + intros a. rewrite Hsame, Hlen. apply Hv.
    + intros i Hi. rewrite Hsame. by apply Hcur, Hflags.
    + by rewrite Hplay.
    + by rewrite Hplay.
    + rewrite Hsame. destruct Hactive as [-> | [-> _]]; [by intros [? ?] | done].
  - destruct Haudio as [Haudio | Haudio]; [done |].
    destruct (audio (state c)) as [a|] eqn:Hc; [| congruence].
    assert (commit (Some a) d = cleanupAudio (Some a) d) as ->.
    { unfold commit.
      assert (effectCleanup (Some a) d = cleanupAudio (Some a) d) as ->
        by (unfold effectCleanup; by rewrite decide_False).
      unfold effectCleanup. rewrite Haudio. by rewrite decide_True. }
    destruct (cleanupAudio_Some a d Hknown) as (Hs1 & Hh1 & _).
    split; unfold pausedFlags; rewrite ?Hs1, ?Hh1; simpl; try done;
      try by intros [? ?].
    rewrite flags_setPaused. intros i. rewrite list_lookup_alter.
    case_decide as Hi; [by destruct (_ !! a) |].
    intros Hfalse. apply Hflags, Hcur in Hfalse. congruence.
Qed.

Lemma coherent_click presetId url c :
  listenersKnown c -> coherent c -> coherent (click presetId url c).
Proof.
  intros Hknown Hc.
  destruct (Js.truthy_opt url) eqn:Hurl; cycle 1.
  { rewrite click_no_preview by done. by apply (coherent_same c). }
  destruct url as [u|]; [| done]. simpl in Hurl.
  pose proof Hc as [Hv Hcur Hp Hpa Ha].
  destruct (audio (state c)) as [a|] eqn:Haudio; cycle 1.
  { rewrite click_start by done. split; unfold pausedFlags; cbn [state heap audio isPlaying activePreset].
    - intros a [= <-]. rewrite length_app. simpl. lia.
    - intros i. rewrite fmap_app. simpl.
      destruct (decide (i < List.length (paused <$> heap c))) as [Hi | Hi].
      + rewrite lookup_app_l by done. intros Hf. apply Hcur in Hf. congruence.
      + rewrite lookup_app_r by lia. rewrite length_fmap in *.
        destruct (i - List.length (heap c)) as [|k] eqn:Hk; [| done].
        intros _. f_equal. lia.
    - intros _. eexists. split; [done |].
      rewrite fmap_app, lookup_app_r by (rewrite length_fmap; lia).
      rewrite length_fmap. by rewrite Nat.sub_diag.
    - by eexists.
    - by eexists. }
  destruct (decide (activePreset (state c) = Some presetId)) as [Hactive | Hactive].
  - rewrite (click_toggle presetId u a) by done.
    assert (Ha' : a < List.length (heap c)) by by apply Hv.
    destruct (isPlaying (state c)) eqn:Hplaying;
      split; unfold pausedFlags;
      cbn [state heap audio isPlaying activePreset setIsPlaying pause play withState withHeap];
      rewrite ?length_alter, ?flags_setPaused, ?Haudio, ?Hactive; try done.
    + intros i. rewrite list_lookup_alter. case_decide as Hi; [by destruct (_ !! a) |].
      intros Hf. apply Hcur in Hf. congruence.
    + intros i. rewrite list_lookup_alter. case_decide as Hi; [intros _; congruence |].
      intros Hf. apply Hcur in Hf. congruence.
    + intros _. exists a. split; [done |]. rewrite list_lookup_alter_eq.
      destruct (lookup_lt_is_Some_2 (paused <$> heap c) a) as [b ->];
        [by rewrite length_fmap | done].
  - destruct (click_switch presetId u a c) as (Hs & (f & g & Hh) & _); try done.
    { by apply Hv. }
    split; unfold pausedFlags; rewrite ?Hs, ?Hh; simpl; try done;
      try by intros [? ?].
    intros i. rewrite fmap_app, flags_setPaused. simpl.
    destruct (decide (i < List.length (heap c))) as [Hi | Hi].
    + rewrite lookup_app_l by by rewrite length_alter, length_fmap.
      rewrite list_lookup_alter. case_decide as Hj; [by destruct (_ !! a) |].
      intros Hf. apply Hcur in Hf. congruence.
    + rewrite lookup_app_r by (rewrite length_alter, length_fmap; lia).
      by destruct (i - _) as [|k].
Qed.

(** In every state the card can be in, the cells and the elements agree. *)
Lemma reachable_coherent c : reachable c -> coherent c.
Proof.
  induction 1 as [| presetId url c Hr IH | a type c Hr IH | closureAudio c Hr IH].
  - apply coherent_mount.
  - by apply coherent_click; [apply reachable_listenersKnown |].
  - destruct (calmer_fire a type c) as [Hk Hc];
      [by apply reachable_listenersKnown |].
    by apply coherent_after_calm.
  - destruct (calmer_playRejected closureAudio c) as [Hk Hc];
      [by apply reachable_listenersKnown |].
    by apply coherent_after_calm.
Qed.

(** *** The audio elements over time *)

(** What a click does to the list of audio elements: it appends at most one
    element, with the preview URL as [src] and the two listeners, and leaves
    the [src] and the listeners of the others as they are. *)
Lemma click_elements presetId url c :
  listenersKnown c -> coherent c ->
  exists added,
    sources (click presetId url c) = sources c ++ added
    /\ listenerEvents (click presetId url c)
       = listenerEvents c ++ ((fun _ => ["ended"; "error"]) <$> added)
    /\ List.length added <= 1
    /\ Forall (fun u => url = Some u) added.
Proof.
  intros Hknown Hc. unfold sources, listenerEvents.
  destruct (Js.truthy_opt url) eqn:Hurl; cycle 1.
  { rewrite click_no_preview by done. exists []. simpl.
    rewrite !app_nil_r. repeat split; [lia | constructor]. }
  destruct url as [u|]; [| done]. simpl in Hurl.
  destruct (audio (state c)) as [a|] eqn:Haudio; cycle 1.
  { rewrite click_start by done. exists [u]. cbn [heap].
    rewrite !fmap_app. repeat split; [simpl; lia | by repeat constructor]. }
  destruct (decide (activePreset (state c) = Some presetId)) as [Hactive | Hactive].
  - rewrite (click_toggle presetId u a) by done. exists []. simpl.
    rewrite !app_nil_r.
    destruct (isPlaying (state c)); cbn [heap setIsPlaying pause play withState withHeap];
      rewrite sources_setPaused, events_setPaused;
      repeat split; try lia; constructor.
  - destruct (click_switch presetId u a c) as (_ & (f & g & Hh) & _); try done.
    { by apply (handle_valid c). }
    exists [u]. rewrite Hh, !fmap_app, sources_setPaused, events_setPaused.
    repeat split; [simpl; lia | by repeat constructor].
Qed.

Lemma reachable_listenerEvents c :
  reachable c -> Forall (eq ["ended"; "error"]) (listenerEvents c).
Proof.
  induction 1 as [| presetId url c Hr IH | a type c Hr IH | closureAudio c Hr IH].
  - constructor.
  - destruct (click_elements presetId url c) as (added & _ & -> & _ & _).
    { by apply reachable_listenersKnown. }
    { by apply reachable_coherent. }
    apply Forall_app. split; [done |].
    apply Forall_fmap, Forall_true. done.
  - destruct (calmer_fire a type c) as [Hk Hc];
      [by apply reachable_listenersKnown |].
    pose proof (calmer_commit (audio (state c)) _ Hk) as Hcommit.
    destruct (calmer_trans _ _ _ Hc Hcommit) as [_ -> _ _ _]. done.
  - destruct (calmer_playRejected closureAudio c) as [Hk Hc];
      [by apply reachable_listenersKnown |].
    pose proof (calmer_commit (audio (state c)) _ Hk) as Hcommit.
    destruct (calmer_trans _ _ _ Hc Hcommit) as [_ -> _ _ _]. done.
Qed.

(** *** Toasts *)

Lemma toasts_cleanupAudio closureAudio c :
  toasts (cleanupAudio closureAudio c) = toasts c.
Proof. by destruct closureAudio. Qed.

Lemma toasts_commit rendered c : toasts (commit rendered c) = toasts c.
Proof.
  unfold commit, effectCleanup.
  repeat case_decide; by rewrite ?toasts_cleanupAudio.
Qed.

Lemma noInfo_runCallback body c :
  Forall (fun t => isInfo t = false) (toasts c) ->
  Forall (fun t => isInfo t = false) (toasts (runCallback body c)).
Proof.
  intros H. destruct body as [| closureAudio |]; simpl; [done | | done].
  rewrite toasts_cleanupAudio. simpl. apply Forall_app. split; [done |].
  by repeat constructor.
Qed.

Lemma noInfo_fire a type c :
  Forall (fun t => isInfo t = false) (toasts c) ->
  Forall (fun t => isInfo t = false) (toasts (fire a type c)).
Proof.
  intros H. unfold fire. destruct (heap c !! a) as [e|]; [| done].
  generalize (List.filter (fun l => bool_decide (event l = type)) (listeners e)).
  intros ls. revert c H.
  induction ls as [|l ls IH]; intros c H; simpl; [done |].
  by apply IH, noInfo_runCallback.
Qed.

Lemma press_reachable p c : reachable c -> reachable (press p c).
Proof.
  intros H. unfold press. destruct (disabled p); [done | by constructor].
Qed.

Lemma shows_reachable pack c : shows pack c -> reachable c.
Proof.
  induction 1; [constructor | by apply press_reachable | by constructor..].
Qed.

Lemma toasts_click_with_preview presetId u c :
  reachable c -> Js.truthy u = true ->
  toasts (click presetId (Some u) c) = toasts c.
Proof.
  intros Hr Hurl.
  destruct (audio (state c)) as [a|] eqn:Haudio; cycle 1.
  { by rewrite click_start. }
  destruct (decide (activePreset (state c) = Some presetId)) as [Hactive | Hactive].
  - rewrite (click_toggle presetId u a) by done. by destruct (isPlaying (state c)).
  - by destruct (click_switch presetId u a c
                   (reachable_listenersKnown c Hr) Haudio
                   (handle_valid c (reachable_coherent c Hr) a Haudio)
                   Hactive Hurl) as (_ & _ & Ht).
Qed.

Lemma no_false_all_true (flags : list bool) :
  (forall i, flags !! i <> Some false) -> Forall (eq true) flags.
Proof.
  intros H. apply Forall_lookup. intros i [|] Hi; [done |]. by destruct (H i).
Qed.

(** *** The properties *)

(** X17: a play request for a preset without preview URL (missing or empty)
    changes neither the cells nor any audio element and creates nothing; it
    only shows the notice.  The button of such a row is disabled, so pressing
    it does nothing at all. *)
Theorem X17_no_preview_only_shows_the_notice presetId url c :
  Js.truthy_opt url = false ->
  state (click presetId url c) = state c
  /\ heap (click presetId url c) = heap c
  /\ functions (click presetId url c) = functions c
  /\ toasts (click presetId url c)
     = toasts c ++ [ToastInfo "No preview available for this preset"]
  /\ forall title,
       press {| presetId := presetId; presetTitle := title;
                soundPreviewUrl := url |} c = c.
Proof.
  intros Hurl. rewrite click_no_preview by done.
  repeat split. intros title. unfold press, disabled. simpl. by rewrite Hurl.
Qed.

Lemma X17_witness :
  state (click "A" (Some "") mount) = state mount
  /\ heap (click "A" (Some "") mount) = heap mount
  /\ functions (click "A" (Some "") mount) = functions mount
  /\ toasts (click "A" (Some "") mount)
     = toasts mount ++ [ToastInfo "No preview available for this preset"]
  /\ forall title,
       press {| presetId := "A"; presetTitle := title;
                soundPreviewUrl := Some "" |} mount = mount.
Proof.
  apply (X17_no_preview_only_shows_the_notice "A" (Some "") mount). reflexivity.
Defined.

(** X18: with an empty [audio] cell, a play request for a preset with a
    preview URL creates one audio element for that URL, attaches the "ended"
    and the "error" listener, starts it, and puts its handle, the preset and
    the playing flag into the cells; the elements that were there are left as
    they are and no toast is shown. *)
Theorem X18_play_from_idle_starts_a_new_element presetId url c :
  audio (state c) = None ->
  Js.truthy url = true ->
  state (click presetId (Some url) c)
  = {| activePreset := Some presetId; audio := Some (List.length (heap c));
       isPlaying := true |}
  /\ (exists e,
        heap (click presetId (Some url) c) = heap c ++ [e]
        /\ src e = url /\ paused e = false
        /\ event <$> listeners e = ["ended"; "error"])
  /\ toasts (click presetId (Some url) c) = toasts c.
Proof.
  intros Haudio Hurl. rewrite click_start by done. cbn [state heap toasts].
  split; [done |]. split; [| done]. by eexists.
Qed.

Lemma X18_witness :
  state (click "B" (Some "b.mp3") mount)
  = {| activePreset := Some "B"; audio := Some (List.length (heap mount));
       isPlaying := true |}
  /\ (exists e,
        heap (click "B" (Some "b.mp3") mount) = heap mount ++ [e]
        /\ src e = "b.mp3" /\ paused e = false
        /\ event <$> listeners e = ["ended"; "error"])
  /\ toasts (click "B" (Some "b.mp3") mount) = toasts mount.
Proof.
  apply (X18_play_from_idle_starts_a_new_element "B" "b.mp3" mount); reflexivity.
Defined.

(** X19: when the [audio] cell holds an element and play is requested for a
    preset that is not the active one (another preset, or any preset after
    the preview has ended), the element of the cell is paused, a new element
    is created for the URL, and after the renders that follow all cells are
    reset and the new element is paused as well: no element sounds. *)
Theorem X19_play_over_a_held_element_ends_idle presetId url a c :
  reachable c ->
  audio (state c) = Some a ->
  activePreset (state c) <> Some presetId ->
  Js.truthy url = true ->
  state (click presetId (Some url) c)
  = {| activePreset := None; audio := None; isPlaying := false |}
  /\ (exists e,
        heap (click presetId (Some url) c)
        = alter (setPaused true) a (heap c) ++ [e]
        /\ src e = url /\ paused e = true)
  /\ Forall (eq true) (pausedFlags (click presetId (Some url) c)).
Proof.
  intros Hr Haudio Hactive Hurl.
  destruct (click_switch presetId url a c
              (reachable_listenersKnown c Hr) Haudio
              (handle_valid c (reachable_coherent c Hr) a Haudio)
              Hactive Hurl) as (Hs & (f & g & Hh) & _).
  split; [done |]. split; [rewrite Hh; by eexists |].
  apply no_false_all_true. intros i Hi.
  assert (Hc : coherent (click presetId (Some url) c))
    by by apply reachable_coherent, reach_click.
  apply (sounding_is_current _ Hc) in Hi. rewrite Hs in Hi. discriminate.
Qed.

Lemma X19_witness :
  let playingB := click "B" (Some "b.mp3") mount in
  state (click "A" (Some "a.mp3") playingB)
  = {| activePreset := None; audio := None; isPlaying := false |}
  /\ (exists e,
        heap (click "A" (Some "a.mp3") playingB)
        = alter (setPaused true) 0 (heap playingB) ++ [e]
        /\ src e = "a.mp3" /\ paused e = true)
  /\ Forall (eq true) (pausedFlags (click "A" (Some "a.mp3") playingB)).
Proof.
  apply (X19_play_over_a_held_element_ends_idle "A" "a.mp3" 0
           (click "B" (Some "b.mp3") mount)).
  - apply reach_click, reach_mount.
  - reflexivity.
  - discriminate.
  - reflexivity.
Defined.

(** X20: in every state the card can be in (after the renders an event
    causes), at most one audio element is not paused, and it is the element
    whose handle is in the [audio] cell. *)
Theorem X20_at_most_one_element_sounds c i j :
  reachable c ->
  pausedFlags c !! i = Some false ->
  pausedFlags c !! j = Some false ->
  i = j /\ audio (state c) = Some i.
Proof.
  intros Hr Hi Hj. pose proof (reachable_coherent c Hr) as Hc.
  apply (sounding_is_current _ Hc) in Hi, Hj. split; [congruence | done].
Qed.

Lemma X20_witness :
  0 = 0 /\ audio (state (click "B" (Some "b.mp3") mount)) = Some 0.
Proof.
  apply (X20_at_most_one_element_sounds (click "B" (Some "b.mp3") mount) 0 0).
  - apply reach_click, reach_mount.
  - reflexivity.
  - reflexivity.
Defined.

(** X21: whenever a row shows the pause icon, the preset of the row is the
    active one and the element in the [audio] cell exists and is not
    paused. *)
Theorem X21_pause_icon_means_an_element_sounds c row :
  reachable c ->
  showsPause (state c) row = true ->
  activePreset (state c) = Some (presetId row)
  /\ exists a e,
       audio (state c) = Some a /\ heap c !! a = Some e /\ paused e = false.
Proof.
  intros Hr [Hplaying Hactive%bool_decide_eq_true]%andb_true_iff.
  split; [done |].
  destruct (playing_sounds _ (reachable_coherent c Hr) Hplaying) as (a & Ha & Hflag).
  unfold pausedFlags in Hflag. rewrite list_lookup_fmap in Hflag.
  destruct (heap c !! a) as [e|] eqn:He; [| done].
  exists a, e. split; [done |]. split; [done |]. simpl in Hflag. congruence.
Qed.

Lemma X21_witness :
  activePreset (state (click "B" (Some "b.mp3") mount)) = Some "B"
  /\ exists a e,
       audio (state (click "B" (Some "b.mp3") mount)) = Some a
       /\ heap (click "B" (Some "b.mp3") mount) !! a = Some e
       /\ paused e = false.
Proof.
  apply (X21_pause_icon_means_an_element_sounds
           (click "B" (Some "b.mp3") mount)
           {| presetId := "B"; presetTitle := "Bass"; soundPreviewUrl := Some "b.mp3" |}).
  - apply reach_click, reach_mount.
  - reflexivity.
Defined.

(** X22: the card lists the first five presets of the pack, in the order of
    the pack: as many rows as the pack has presets, but at most five, and row
    [i] is preset [i] of the pack. *)
Theorem X22_the_card_lists_the_first_five_presets pack i :
  List.length (displayedPresets pack) = min 5 (List.length (presets pack))
  /\ displayedPresets pack `prefix_of` presets pack
  /\ displayedPresets pack !! i
     = (if decide (i < 5) then presets pack !! i else None).
Proof.
  unfold displayedPresets. split; [apply length_take |].
  split; [apply prefix_take |].
  case_decide.
  - by apply lookup_take_lt.
  - apply lookup_take_ge. lia.
Qed.

Lemma pause_rows_at_most_one (s : CardState) (rows : list Preset) :
  NoDup (presetId <$> rows) ->
  List.length (List.filter (showsPause s) rows) <= 1.
Proof.
  induction rows as [|row rows IH]; simpl; [lia |].
  intros [Hnotin Hrest]%NoDup_cons.
  destruct (showsPause s row) eqn:Hrow; [| by apply IH].
  assert (List.filter (showsPause s) rows = []) as ->; [| simpl; lia].
  apply andb_true_iff in Hrow as [_ Hid%bool_decide_eq_true].
  clear IH Hrest. induction rows as [|other rows IH]; simpl; [done |].
  destruct (showsPause s other) eqn:Hother.
  - apply andb_true_iff in Hother as [_ Hid'%bool_decide_eq_true].
    destruct Hnotin. simpl. apply elem_of_cons. left. congruence.
  - apply IH. intros Hin. apply Hnotin. simpl. apply elem_of_cons. by right.
Qed.

(** X23: when the displayed presets have distinct identifiers, at most one
    row shows the pause icon, whatever the cells hold. *)
Theorem X23_at_most_one_row_shows_the_pause_icon pack s :
  NoDup (presetId <$> displayedPresets pack) ->
  List.length (List.filter (showsPause s) (displayedPresets pack)) <= 1.
Proof. apply pause_rows_at_most_one. Qed.

Lemma X23_witness :
  List.length
    (List.filter
       (showsPause {| activePreset := Some "B"; audio := Some 0; isPlaying := true |})
       (displayedPresets
          {| packId := "k1";
             presets :=
               [ {| presetId := "A"; presetTitle := "Arp"; soundPreviewUrl := None |};
                 {| presetId := "B"; presetTitle := "Bass";
                    soundPreviewUrl := Some "b.mp3" |} ] |})) <= 1.
Proof.
  apply (X23_at_most_one_row_shows_the_pause_icon
           {| packId := "k1";
              presets :=
                [ {| presetId := "A"; presetTitle := "Arp"; soundPreviewUrl := None |};
                  {| presetId := "B"; presetTitle := "Bass";
                     soundPreviewUrl := Some "b.mp3" |} ] |}).
  simpl. apply NoDup_cons. split.
  - intros [H | H]%elem_of_cons; [discriminate | by apply elem_of_nil in H].
  - apply NoDup_singleton.
Defined.

(** X24: through the buttons of the card the notice about a missing preview
    is never shown: the button of a row without preview is disabled, so
    [togglePlay] is only ever called with a preview URL. *)
Theorem X24_the_buttons_never_lead_to_the_notice pack c :
  shows pack c -> Forall (fun t => isInfo t = false) (toasts c).
Proof.
  induction 1 as [| p c Hp Hs IH | a type c Hs IH | closureAudio c Hs IH].
  - constructor.
  - unfold press, disabled. destruct (soundPreviewUrl p) as [u|] eqn:Hu; simpl; [| done].
    destruct (Js.truthy u) eqn:Htruthy; simpl; [| done].
    rewrite toasts_click_with_preview; [done | by eapply shows_reachable | done].
  - rewrite toasts_commit. by apply noInfo_fire.
  - rewrite toasts_commit. unfold playRejected. rewrite toasts_cleanupAudio.
    simpl. apply Forall_app. split; [done | by repeat constructor].
Qed.

Lemma X24_witness :
  let pack := {| packId := "k1";
                 presets :=
                   [ {| presetId := "A"; presetTitle := "Arp"; soundPreviewUrl := None |};
                     {| presetId := "B"; presetTitle := "Bass";
                        soundPreviewUrl := Some "b.mp3" |} ] |} in
  Forall (fun t => isInfo t = false)
    (toasts (press {| presetId := "A"; presetTitle := "Arp"; soundPreviewUrl := None |}
               mount)).
Proof.
  intros pack.
  apply (X24_the_buttons_never_lead_to_the_notice pack).
  apply shows_press; [| apply shows_mount].
  simpl. apply elem_of_cons. by left.
Defined.

(** X25: no event removes an audio element or changes its [src].  A click
    adds at most one element, whose [src] is the preview URL passed; an event
    of an element and a rejected [play] add none. *)
Theorem X25_audio_elements_are_only_ever_added presetId url a type closureAudio c :
  reachable c ->
  (exists added,
     sources (click presetId url c) = sources c ++ added
     /\ List.length added <= 1
     /\ Forall (fun u => url = Some u) added)
  /\ sources (commit (audio (state c)) (fire a type c)) = sources c
  /\ sources (commit (audio (state c)) (playRejected closureAudio c)) = sources c.
Proof.
  intros Hr. pose proof (reachable_listenersKnown c Hr) as Hknown.
  split; [| split].
  - destruct (click_elements presetId url c Hknown (reachable_coherent c Hr))
      as (added & Hs & _ & Hlen & Hurl).
    by exists added.
  - destruct (calmer_fire a type c Hknown) as [Hk Hc].
    pose proof (calmer_commit (audio (state c)) _ Hk) as Hcommit.
    by destruct (calmer_trans _ _ _ Hc Hcommit) as [-> _ _ _ _].
  - destruct (calmer_playRejected closureAudio c Hknown) as [Hk Hc].
    pose proof (calmer_commit (audio (state c)) _ Hk) as Hcommit.
    by destruct (calmer_trans _ _ _ Hc Hcommit) as [-> _ _ _ _].
Qed.

Lemma X25_witness :
  (exists added,
     sources (click "A" (Some "a.mp3") (click "B" (Some "b.mp3") mount))
     = sources (click "B" (Some "b.mp3") mount) ++ added
     /\ List.length added <= 1
     /\ Forall (fun u => Some "a.mp3" = Some u) added)
  /\ sources (commit (audio (state (click "B" (Some "b.mp3") mount)))
                (fire 0 "ended" (click "B" (Some "b.mp3") mount)))
     = sources (click "B" (Some "b.mp3") mount)
  /\ sources (commit (audio (state (click "B" (Some "b.mp3") mount)))
                (playRejected None (click "B" (Some "b.mp3") mount)))
     = sources (click "B" (Some "b.mp3") mount).
Proof.
  apply (X25_audio_elements_are_only_ever_added
           "A" (Some "a.mp3") 0 "ended" None (click "B" (Some "b.mp3") mount)).
  apply reach_click, reach_mount.
Defined.

(** X26: every audio element the card has created carries its "ended" and
    its "error" listener in every later state: no listener is ever
    detached, from any element. *)
Theorem X26_no_listener_is_ever_detached c a e :
  reachable c ->
  heap c !! a = Some e ->
  event <$> listeners e = ["ended"; "error"].
Proof.
  intros Hr He. pose proof (reachable_listenerEvents c Hr) as Hall.
  eapply Forall_lookup_1 in Hall; [symmetry; exact Hall |].
  unfold listenerEvents. by rewrite list_lookup_fmap, He.
Qed.

Lemma X26_witness :
  event <$> listeners {| src := "b.mp3"; paused := true;
                         listeners :=
                           [ {| event := "ended"; fn := 0; code := EndedHandler |};
                             {| event := "error"; fn := 1;
                                code := ErrorHandler None |} ] |}
  = ["ended"; "error"].
Proof.
  apply (X26_no_listener_is_ever_detached
           (click "A" (Some "a.mp3") (click "B" (Some "b.mp3") mount)) 0).
  - apply reach_click, reach_click, reach_mount.
  - reflexivity.
Defined.

(** X27: when the card is taken off the page, the clean-up of the effect
    pauses the element in the [audio] cell, so that afterwards no audio
    element of the card sounds; the elements and their listeners stay as they
    are. *)
Theorem X27_unmounting_silences_the_card c :
  reachable c ->
  Forall (eq true) (pausedFlags (unmount c))
  /\ sources (unmount c) = sources c
  /\ listenerEvents (unmount c) = listenerEvents c.
Proof.
  intros Hr. pose proof (reachable_listenersKnown c Hr) as Hknown.
  pose proof (reachable_coherent c Hr) as Hc. unfold unmount.
  destruct (calmer_cleanupAudio (audio (state c)) c Hknown) as [Hs Hl _ _ _].
  split; [| by split].
  apply no_false_all_true. intros i Hi.
  destruct (audio (state c)) as [a|] eqn:Haudio.
  - destruct (cleanupAudio_Some a c Hknown) as (_ & Hh & _).
    unfold pausedFlags in Hi. rewrite Hh, flags_setPaused, list_lookup_alter in Hi.
    case_decide as Hai; [by destruct (_ !! a) |].
    apply (sounding_is_current _ Hc) in Hi. congruence.
  - apply (sounding_is_current _ Hc) in Hi. congruence.
Qed.

Lemma X27_witness :
  Forall (eq true) (pausedFlags (unmount (click "B" (Some "b.mp3") mount)))
  /\ sources (unmount (click "B" (Some "b.mp3") mount))
     = sources (click "B" (Some "b.mp3") mount)
  /\ listenerEvents (unmount (click "B" (Some "b.mp3") mount))
     = listenerEvents (click "B" (Some "b.mp3") mount).
Proof.
  apply (X27_unmounting_silences_the_card (click "B" (Some "b.mp3") mount)).
  apply reach_click, reach_mount.
Defined.

End CardFacts.
